(** * JSON formatter: error locator and syntax highlighter

    A shallow embedding of the two implementation variants of the
    repository's formatter page:

    - [Page]  : [src/app/page.tsx]   ([syntaxHighlight], [getErrorLineNumber],
                [formatJSON], [minifyJSON], [validateJSON]);
    - [Part0] : [unnamed/part_000]   ([getErrorLocation], [syntaxHighlight],
                [parseAndValidate], [formatJson]).

    JavaScript strings are sequences of UTF-16 code units; they are modelled
    as [list N].  Numbers are doubles: what [parseInt] returns is the
    double nearest to the number written, while lengths, indices and the
    counters of a walk, which stay below [2 ^ 53] on every string, are
    natural numbers.  The regular expressions of the source are kept as syntax
    trees and run by a backtracking matcher that follows the priority order
    of the ECMAScript pattern semantics (leftmost alternative first, greedy
    quantifiers). *)

From Stdlib Require Import String Ascii.
From Stdlib Require Import List NArith Arith Lia Bool.
Import ListNotations.

Set Implicit Arguments.

(** ** JavaScript strings *)

Definition jsstring := list N.

(** A source-level ASCII literal as a sequence of code units. *)
Definition lit (s : string) : jsstring :=
  map N_of_ascii (list_ascii_of_string s).

Definition dq : N := 34.        (* the double quote *)
Definition amp : N := 38.       (* & *)
Definition lt : N := 60.        (* < *)
Definition gt : N := 62.        (* > *)
Definition colon : N := 58.     (* : *)
Definition bslash : N := 92.    (* \ *)
Definition nl : N := 10.        (* line feed *)

Definition in_range (lo hi c : N) : bool := (lo <=? c)%N && (c <=? hi)%N.

Definition is_digit (c : N) : bool := in_range 48 57 c.
Definition is_upper (c : N) : bool := in_range 65 90 c.
Definition is_lower (c : N) : bool := in_range 97 122 c.

(** [\w] of a pattern without the unicode flag: [A-Za-z0-9_]. *)
Definition is_word (c : N) : bool :=
  is_lower c || is_upper c || is_digit c || (c =? 95)%N.

(** [\s], which is also the set removed by [String.prototype.trim]:
    WhiteSpace and LineTerminator code points. *)
Definition is_space (c : N) : bool :=
  in_range 9 13 c || (c =? 32)%N || (c =? 160)%N || (c =? 5760)%N
  || in_range 8192 8202 c || (c =? 8232)%N || (c =? 8233)%N
  || (c =? 8239)%N || (c =? 8287)%N || (c =? 12288)%N || (c =? 65279)%N.

(** The code unit before the position reached after reading [x]. *)
Definition lastp (p : option N) (x : jsstring) : option N :=
  match rev x with
  | [] => p
  | c :: _ => Some c
  end.

(** ** Regular expressions *)

Module Regex.

Inductive regex : Type :=
| Eps
| Class (p : N -> bool)
| Seq (a b : regex)
| Alt (a b : regex)
| Star (a : regex)
| Opt (a : regex)
| Group (i : nat) (a : regex)
| WordB
| Bos
| Eos.

Definition Chr (c : N) : regex := Class (N.eqb c).
Definition Plus (a : regex) : regex := Seq a (Star a).

Fixpoint Rep (n : nat) (a : regex) : regex :=
  match n with
  | O => Eps
  | S n' => Seq a (Rep n' a)
  end.

(** A literal word. *)
Fixpoint Str (s : jsstring) : regex :=
  match s with
  | [] => Eps
  | c :: s' => Seq (Chr c) (Str s')
  end.

(** A literal word under the [i] flag.  Without the unicode flag a pattern
    character and an input character agree when their upper-case forms do,
    and a non-ASCII character is never folded to an ASCII one, so an ASCII
    lower-case letter agrees with itself and with its capital only. *)
Definition upcase (c : N) : N := if is_lower c then (c - 32)%N else c.

Definition ChrI (c : N) : regex :=
  Class (fun x => (x =? c)%N || (x =? upcase c)%N).

Fixpoint StrI (s : jsstring) : regex :=
  match s with
  | [] => Eps
  | c :: s' => Seq (ChrI c) (StrI s')
  end.

(** The numbers of the capturing groups inside a pattern. *)
Fixpoint groups (r : regex) : list nat :=
  match r with
  | Seq a b | Alt a b => groups a ++ groups b
  | Star a | Opt a => groups a
  | Group i a => i :: groups a
  | _ => []
  end.

Definition captures := list (nat * jsstring).

Fixpoint capture (i : nat) (cs : captures) : option jsstring :=
  match cs with
  | [] => None
  | (j, x) :: cs' => if Nat.eqb i j then Some x else capture i cs'
  end.

Definition clear (gs : list nat) (cs : captures) : captures :=
  filter (fun e => negb (existsb (Nat.eqb (fst e)) gs)) cs.

(** The matcher state: the code unit before the current position, the
    input that remains, the captures made so far. *)
Record mstate : Type := MState {
  prev : option N;
  rest : jsstring;
  caps : captures
}.

Definition is_word_opt (o : option N) : bool :=
  match o with
  | Some c => is_word c
  | None => false
  end.

Definition consumed (before after : jsstring) : jsstring :=
  firstn (length before - length after) before.

(** The loop of a greedy [*]: try one more iteration of the body [ma]
    (with the captures of its groups [gs] forgotten), and fall back on the
    continuation when that fails.  An iteration that reads nothing is
    rejected, so [length (rest st)] iterations are always enough. *)
Definition star_loop
  (ma : mstate -> (mstate -> option mstate) -> option mstate)
  (gs : list nat) (k : mstate -> option mstate)
  : nat -> mstate -> option mstate :=
  fix loop (n : nat) (st : mstate) {struct n} : option mstate :=
    match n with
    | O => k st
    | S n' =>
        match ma (MState (prev st) (rest st) (clear gs (caps st)))
                 (fun st' =>
                    if length (rest st') <? length (rest st)
                    then loop n' st' else None) with
        | Some res => Some res
        | None => k st
        end
    end.

(** The backtracking matcher, in continuation-passing style: [k] is what
    remains to be matched; [None] makes the caller try its next choice.
    (The groups of an optional part hold no capture when it is entered,
    unless a surrounding [*] has just forgotten them, so [Opt] has nothing
    to forget.) *)
Fixpoint run (r : regex) (st : mstate) (k : mstate -> option mstate)
  : option mstate :=
  match r with
  | Eps => k st
  | Class p =>
      match rest st with
      | c :: s' => if p c then k (MState (Some c) s' (caps st)) else None
      | [] => None
      end
  | Seq a b => run a st (fun st' => run b st' k)
  | Alt a b =>
      match run a st k with
      | Some res => Some res
      | None => run b st k
      end
  | Star a => star_loop (run a) (groups a) k (length (rest st)) st
  | Opt a =>
      match run a st (fun st' =>
                        if length (rest st') <? length (rest st)
                        then k st' else None) with
      | Some res => Some res
      | None => k st
      end
  | Group i a =>
      run a st (fun st' =>
                  k (MState (prev st') (rest st')
                       ((i, consumed (rest st) (rest st')) :: caps st')))
  | WordB =>
      if xorb (is_word_opt (prev st)) (is_word_opt (hd_error (rest st)))
      then k st else None
  | Bos => match prev st with None => k st | Some _ => None end
  | Eos => match rest st with [] => k st | _ :: _ => None end
  end.

(** One attempt at the current position. *)
Definition match_here (re : regex) (p : option N) (s : jsstring)
  : option mstate :=
  run re (MState p s []) Some.

(** The result of a successful attempt: text before, matched text,
    captures, text after. *)
Record found : Type := Found {
  before : jsstring;
  matched : jsstring;
  groups_of : captures;
  after : jsstring
}.

(** [RegExp.prototype.exec] without the global flag: the first position,
    left to right, at which an attempt succeeds (the end of the input is a
    position too). *)
Fixpoint search_from (re : regex) (p : option N) (s : jsstring)
  : option found :=
  match match_here re p s with
  | Some st => Some (Found [] (consumed s (rest st)) (caps st) (rest st))
  | None =>
      match s with
      | [] => None
      | c :: s' =>
          match search_from re (Some c) s' with
          | Some f => Some (Found (c :: before f) (matched f) (groups_of f) (after f))
          | None => None
          end
      end
  end.

Definition exec (re : regex) (s : jsstring) : option found :=
  search_from re None s.

(** [re.test(s)]. *)
Definition test (re : regex) (s : jsstring) : bool :=
  match exec re s with Some _ => true | None => false end.

(** [s.replace(re, repl)] for a pattern without the global flag and a
    replacement text without [$]. *)
Definition replace_first (re : regex) (repl : jsstring) (s : jsstring)
  : jsstring :=
  match exec re s with
  | Some f => before f ++ repl ++ after f
  | None => s
  end.

(** The successive results of a pattern with the global flag: every code
    unit of the input is either copied ([Lit]) or part of a match ([Hit]).
    [skip] counts the code units of the current match still to pass. *)
Inductive item : Type :=
| Lit (c : N)
| Hit (m : jsstring) (cs : captures).

Fixpoint scan (re : regex) (p : option N) (skip : nat) (s : jsstring)
  : list item :=
  match skip with
  | S k =>
      match s with
      | [] => []
      | c :: s' => scan re (Some c) k s'
      end
  | O =>
      match match_here re p s with
      | Some st =>
          Hit (consumed s (rest st)) (caps st) ::
          match s with
          | [] => []
          | c :: s' =>
              match length s - length (rest st) with
              | O => Lit c :: scan re (Some c) 0 s'
              | S k => scan re (Some c) k s'
              end
          end
      | None =>
          match s with
          | [] => []
          | c :: s' => Lit c :: scan re (Some c) 0 s'
          end
      end
  end.

(** [s.replace(re, f)] for a pattern with the global flag; the replacer
    receives the matched text and the captures. *)
Definition render (f : jsstring -> captures -> jsstring) (it : item)
  : jsstring :=
  match it with
  | Lit c => [c]
  | Hit m cs => f m cs
  end.

Definition replace_all (re : regex) (f : jsstring -> captures -> jsstring)
  (s : jsstring) : jsstring :=
  flat_map (render f) (scan re None 0 s).

(** A replacement text: literal pieces and [$n] references. *)
Inductive piece : Type :=
| Text (t : jsstring)
| Ref (i : nat).

Definition substitute (tpl : list piece) (m : jsstring) (cs : captures)
  : jsstring :=
  flat_map (fun p => match p with
                     | Text t => t
                     | Ref i => match capture i cs with
                                | Some x => x
                                | None => []
                                end
                     end) tpl.

(** [s.replace(re, text)] for a pattern with the global flag. *)
Definition replace_all_text (re : regex) (tpl : list piece) (s : jsstring)
  : jsstring :=
  replace_all re (substitute tpl) s.

End Regex.

Import Regex.

(** ** Host primitives shared by the two variants *)

(** [s.split] on a separator: the pieces of [s] between the separators; never
    empty. *)
Fixpoint split_on (sep : N) (s : jsstring) : list jsstring :=
  match s with
  | [] => [[]]
  | c :: s' =>
      if (c =? sep)%N then [] :: split_on sep s'
      else match split_on sep s' with
           | l :: ls => (c :: l) :: ls
           | [] => [[c]]
           end
  end.

(** [l.map((x, i) => f(x, i))], the index starting at [i]. *)
Fixpoint map_index {A B : Type} (f : A -> N -> B) (i : N) (l : list A)
  : list B :=
  match l with
  | [] => []
  | x :: l' => f x i :: map_index f (i + 1)%N l'
  end.

(** [s.substring(0, n)]: the end is clamped to the length. *)
Definition substring0 (n : N) (s : jsstring) : jsstring :=
  firstn (N.to_nat n) s.

(** The longest prefix of code units satisfying [p], and what follows. *)
Fixpoint take_while (p : N -> bool) (s : jsstring) : jsstring :=
  match s with
  | [] => []
  | c :: s' => if p c then c :: take_while p s' else []
  end.

Fixpoint drop_while (p : N -> bool) (s : jsstring) : jsstring :=
  match s with
  | [] => []
  | c :: s' => if p c then drop_while p s' else s
  end.

(** [s.trim()]. *)
Definition trim_start (s : jsstring) : jsstring := drop_while is_space s.

Definition trim (s : jsstring) : jsstring :=
  rev (trim_start (rev (trim_start s))).

(** The number that a run of decimal digits writes. *)
Definition decimal (ds : jsstring) : N :=
  fold_left (fun acc d => (acc * 10 + (d - 48))%N) ds 0%N.

(** Numbers of the host are doubles.  Those that the code forms from
    digits and lengths are natural numbers or [Infinity]. *)
Inductive jsnumber : Type :=
| Finite (n : N)
| Infinity.

(** The double of a natural number: a significand of 53 bits, the bits
    below it rounded to nearest, a tie to the even significand;
    [Infinity] when the rounded number does not fit. *)
Definition to_double (n : N) : jsnumber :=
  let e := (N.log2 n - 52)%N in
  let q := (n / 2 ^ e)%N in
  let r := (n mod 2 ^ e)%N in
  let up := (2 ^ e <? 2 * r)%N || ((2 ^ e =? 2 * r)%N && N.odd q) in
  let v := ((if up then q + 1 else q) * 2 ^ e)%N in
  if (v <? 2 ^ 1024)%N then Finite v else Infinity.

(** [parseInt(ds, 10)] on a run of decimal digits: the double of the
    number written, as the engines compute it (the standard also lets an
    implementation read the digits after the twentieth as zeros, which
    matters to no number below [10 ^ 20]). *)
Definition parseInt10 (ds : jsstring) : jsnumber := to_double (decimal ds).

(** The iteration protocol of a string ([for (const char of s)]): one
    element per code point, a surrogate pair counting as one. *)
Definition is_high_surrogate (c : N) : bool := in_range 55296 56319 c.
Definition is_low_surrogate (c : N) : bool := in_range 56320 57343 c.

Fixpoint code_points (s : jsstring) : list jsstring :=
  match s with
  | [] => []
  | c :: s' =>
      match s' with
      | d :: s'' =>
          if is_high_surrogate c && is_low_surrogate d
          then [c; d] :: code_points s''
          else [c] :: code_points s'
      | [] => [[c]]
      end
  end.

Definition is_newline (char : jsstring) : bool :=
  match char with
  | [c] => (c =? nl)%N
  | _ => false
  end.

(** The token classes of the highlighter. *)
Inductive token_class : Type :=
| TKey | TString | TNumber | TBoolean | TNull | TBrace | TBracket.

(** JSON values, as far as the page looks at them ([parsed === null]). *)
#[warnings="-register-all"]
Inductive json (number : Type) : Type :=
| JNull
| JBool (b : bool)
| JNumber (x : number)
| JString (s : jsstring)
| JArray (l : list (json number))
| JObject (m : list (jsstring * json number)).

Arguments JNull {number}.
Arguments JBool {number} b.
Arguments JString {number} s.

Definition is_null {number : Type} (v : json number) : bool :=
  match v with
  | JNull => true
  | _ => false
  end.

(** The outcome of [JSON.parse]: a value, or a [SyntaxError] thrown with
    its message. *)
Inductive parse_result (number : Type) : Type :=
| Parsed (v : json number)
| Thrown (message : jsstring).

Arguments Thrown {number} message.

(** The patterns of the error locators: a word under the [i] flag, white
    space, the digits as group 1. *)
Definition marker_re (w : jsstring) : regex :=
  Seq (StrI w) (Seq (Plus (Class is_space)) (Group 1 (Plus (Class is_digit)))).

Definition position_re : regex := marker_re (lit "position").
Definition line_re : regex := marker_re (lit "line").

(** [m[1]] of a match result; group 1 takes part in every match of the two
    patterns above (see [marker_group]). *)
Definition group1 (f : found) : jsstring :=
  match capture 1 (groups_of f) with
  | Some x => x
  | None => []
  end.

(** The pieces of the token pattern that the two variants share. *)
Definition is_hex (c : N) : bool :=
  in_range 97 102 c || in_range 65 70 c || is_digit c.
Definition is_alnum (c : N) : bool :=
  is_lower c || is_upper c || is_digit c.

Definition string_re (hex4 : N -> bool) : regex :=
  Seq (Chr dq)
   (Seq (Star (Group 2
           (Alt (Seq (Chr bslash) (Seq (Chr 117) (Rep 4 (Class hex4))))
           (Alt (Seq (Chr bslash) (Class (fun c => negb (c =? 117)%N)))
                (Class (fun c => negb ((c =? bslash)%N || (c =? dq)%N)))))))
   (Seq (Chr dq)
        (Opt (Group 3 (Seq (Star (Class is_space)) (Chr colon)))))).

Definition keyword_re : regex :=
  Seq WordB
   (Seq (Group 4 (Alt (Str (lit "true"))
                 (Alt (Str (lit "false")) (Str (lit "null")))))
        WordB).

Definition number_re : regex :=
  Seq (Opt (Chr 45))
   (Seq (Plus (Class is_digit))
   (Seq (Opt (Seq (Chr 46) (Star (Class is_digit))))
        (Opt (Seq (Class (fun c => (c =? 101)%N || (c =? 69)%N))
             (Seq (Opt (Class (fun c => (c =? 43)%N || (c =? 45)%N)))
                  (Plus (Class is_digit))))))).

Definition token_re (hex4 : N -> bool) : regex :=
  Group 1 (Alt (string_re hex4) (Alt keyword_re number_re)).

(** The tests of the replacer callback, the same in both variants:
    a leading quote, a final colon, [true|false], [null]. *)
Definition classify (m : jsstring) : token_class :=
  if test (Seq Bos (Chr dq)) m then
    if test (Seq (Chr colon) Eos) m then TKey else TString
  else if test (Alt (Str (lit "true")) (Str (lit "false"))) m then TBoolean
  else if test (Str (lit "null")) m then TNull
  else TNumber.

(** The three escaping passes, the same in both variants. *)
Definition escape (json : jsstring) : jsstring :=
  replace_all_text (Chr gt) [Text (lit "&gt;")]
    (replace_all_text (Chr lt) [Text (lit "&lt;")]
       (replace_all_text (Chr amp) [Text (lit "&amp;")] json)).

Definition span_close : jsstring := lit "</span>".

(** ** Variant [unnamed/part_000] *)

Module Part0.

Record JsonError : Type := mkJsonError {
  message : jsstring;
  line : option N;
  column : option N
}.

(** The character walk of [getErrorLocation].  The offset is only compared
    with indices of the text, which are below [2 ^ 53]; there the double
    that [parseInt] returns and the number written compare alike
    ([offset_as_written]), and the offset is kept as written. *)
Fixpoint walk (position : N) (chars : list jsstring)
  (line column currentPos : N) : N * N :=
  match chars with
  | [] => (line, column)
  | char :: chars' =>
      if (position <=? currentPos)%N then (line, column)
      else if is_newline char
           then walk position chars' (line + 1) 1 (currentPos + 1)
           else walk position chars' line (column + 1) (currentPos + 1)
  end.

Definition getErrorLocation (jsonString : jsstring) (error_message : jsstring)
  : option (N * N) :=
  match exec position_re error_message with
  | None => None
  | Some match_ =>
      let position := decimal (group1 match_) in
      Some (walk position (code_points jsonString) 1 1 0)
  end.

Definition class_name (c : token_class) : jsstring :=
  match c with
  | TKey => lit "json-key"
  | TString => lit "json-string"
  | TBoolean => lit "json-boolean"
  | TNull => lit "json-null"
  | _ => lit "json-number"
  end.

Definition span_open (c : token_class) : jsstring :=
  lit "<span class=" ++ [dq] ++ class_name c ++ [dq] ++ lit ">".

Definition replacer (match_ : jsstring) (_ : captures) : jsstring :=
  span_open (classify match_) ++ match_ ++ span_close.

Definition syntaxHighlight (json : jsstring) : jsstring :=
  let escaped := escape json in
  replace_all (token_re is_hex) replacer escaped.

Section Handlers.

Variable number : Type.
Variable JSON_parse : jsstring -> parse_result number.
Variable JSON_stringify : json number -> option N -> jsstring.

Record state : Type := mkState {
  input : jsstring;
  output : jsstring;
  error : option JsonError;
  copied : bool;
  highlightedOutput : jsstring
}.

Definition parseAndValidate (jsonString : jsstring)
  : json number * option JsonError :=
  match trim jsonString with
  | [] => (JNull, None)
  | _ :: _ =>
      match JSON_parse jsonString with
      | Parsed parsed => (parsed, None)
      | Thrown msg =>
          let location := getErrorLocation jsonString msg in
          (JNull,
           Some (mkJsonError msg (option_map fst location)
                             (option_map snd location)))
      end
  end.

Definition formatJson (minify : bool) (st : state) : state :=
  let (parsed, parseError) := parseAndValidate (input st) in
  match parseError with
  | Some e => mkState (input st) [] (Some e) (copied st) []
  | None =>
      if is_null parsed
      then mkState (input st) [] None (copied st) []
      else
        let formatted :=
          if minify then JSON_stringify parsed None
          else JSON_stringify parsed (Some 2%N) in
        mkState (input st) formatted None (copied st)
                (syntaxHighlight formatted)
  end.

Definition handleFormat : state -> state := formatJson false.
Definition handleMinify : state -> state := formatJson true.

End Handlers.

(** [handleClear] (it also gives the focus back to the text area). *)
Definition handleClear (st : state) : state :=
  mkState [] [] None (copied st) [].

(** The change handler of the text area. *)
Definition setInput (value : jsstring) (st : state) : state :=
  mkState value (output st) (error st) (copied st) (highlightedOutput st).

(** The numbers of the gutter. *)
Definition lineNumbers (st : state) : list N :=
  match output st with
  | [] => []
  | _ :: _ => map_index (fun _ i => (i + 1)%N) 0%N (split_on nl (output st))
  end.

(** What the output panel shows: the markup with its gutter, or a
    placeholder. *)
Inductive panel : Type :=
| Highlighted (html : jsstring) (gutter : list N)
| Placeholder (text : jsstring).

Definition outputPanel (st : state) : panel :=
  match highlightedOutput st with
  | _ :: _ => Highlighted (highlightedOutput st) (lineNumbers st)
  | [] => Placeholder (lit "Formatted JSON will appear here")
  end.

End Part0.

(** ** Variant [src/app/page.tsx] *)

Module Page.

(** The entries of [syntaxColors] that the highlighter reads (the entries
    [comma] and [colon] are never read). *)
Definition syntaxColors (c : token_class) : jsstring :=
  match c with
  | TKey => lit "#9cdcfe"
  | TString => lit "#ce9178"
  | TNumber => lit "#b5cea8"
  | TBoolean => lit "#569cd6"
  | TNull => lit "#569cd6"
  | TBracket => lit "#ffd700"
  | TBrace => lit "#da70d6"
  end.

Definition span_open (c : token_class) : jsstring :=
  lit "<span style=" ++ [dq] ++ lit "color:" ++ syntaxColors c ++ [dq]
  ++ lit ">".

(** The callback of the token pass.  A key is rewritten before it is
    wrapped: every quote by a quote, then the final colon by a quote and a
    colon. *)
Definition replacer (match_ : jsstring) (_ : captures) : jsstring :=
  let color := classify match_ in
  let match_ :=
    match color with
    | TKey =>
        replace_first (Seq (Chr colon) Eos) [dq; colon]
          (replace_all_text (Chr dq) [Text [dq]] match_)
    | _ => match_
    end in
  span_open color ++ match_ ++ span_close.

Definition is_brace (c : N) : bool := (c =? 123)%N || (c =? 125)%N.
Definition is_bracket (c : N) : bool := (c =? 91)%N || (c =? 93)%N.

Definition wrap_group1 (c : token_class) : list piece :=
  [Text (span_open c); Ref 1; Text span_close].

Definition token_pass (json : jsstring) : jsstring :=
  replace_all (token_re is_alnum) replacer (escape json).

Definition syntaxHighlight (json : jsstring) : jsstring :=
  replace_all_text (Group 1 (Class is_bracket)) (wrap_group1 TBracket)
    (replace_all_text (Group 1 (Class is_brace)) (wrap_group1 TBrace)
       (token_pass json)).

(** As in the walk of [part_000], the offset only bounds a substring of
    the text and is kept as written; the number of a line marker is
    returned as [parseInt] gives it, a double. *)
Definition getErrorLineNumber (error_message : jsstring) (input : jsstring)
  : option jsnumber :=
  match exec position_re error_message with
  | Some positionMatch =>
      let position := decimal (group1 positionMatch) in
      let lines := split_on nl (substring0 position input) in
      Some (Finite (N.of_nat (length lines)))
  | None =>
      match exec line_re error_message with
      | Some lineMatch => Some (parseInt10 (group1 lineMatch))
      | None => None
      end
  end.

Section Handlers.

Variable number : Type.
Variable JSON_parse : jsstring -> parse_result number.
Variable JSON_stringify : json number -> option N -> jsstring.

Record state : Type := mkState {
  input : jsstring;
  output : jsstring;
  error : option jsstring;
  errorLine : option jsnumber;
  copied : bool;
  indentSize : N
}.

Definition formatJSON (st : state) : state :=
  match trim (input st) with
  | [] => mkState (input st) [] None None (copied st) (indentSize st)
  | _ :: _ =>
      match JSON_parse (input st) with
      | Parsed parsed =>
          let formatted := JSON_stringify parsed (Some (indentSize st)) in
          mkState (input st) formatted None None (copied st) (indentSize st)
      | Thrown msg =>
          let line := getErrorLineNumber msg (input st) in
          mkState (input st) [] (Some msg) line (copied st) (indentSize st)
      end
  end.

Definition minifyJSON (st : state) : state :=
  match trim (input st) with
  | [] => mkState (input st) [] None None (copied st) (indentSize st)
  | _ :: _ =>
      match JSON_parse (input st) with
      | Parsed parsed =>
          let minified := JSON_stringify parsed None in
          mkState (input st) minified None None (copied st) (indentSize st)
      | Thrown msg =>
          let line := getErrorLineNumber msg (input st) in
          mkState (input st) [] (Some msg) line (copied st) (indentSize st)
      end
  end.

(** [validateJSON] also raises an alert when the input parses; the second
    component is the text of that alert: a check mark (U+2705), a space,
    the words. *)
Definition validateJSON (st : state) : state * option jsstring :=
  match trim (input st) with
  | [] =>
      (mkState (input st) (output st)
               (Some (lit "Please enter some JSON to validate")) None
               (copied st) (indentSize st), None)
  | _ :: _ =>
      match JSON_parse (input st) with
      | Parsed _ =>
          (mkState (input st) (output st) None None (copied st)
                   (indentSize st), Some (9989%N :: lit " Valid JSON!"))
      | Thrown msg =>
          let line := getErrorLineNumber msg (input st) in
          (mkState (input st) (output st) (Some msg) line (copied st)
                   (indentSize st), None)
      end
  end.

End Handlers.

(** [clearAll]. *)
Definition clearAll (st : state) : state :=
  mkState [] [] None None (copied st) (indentSize st).

(** The change handlers of the text area and of the indent selector. *)
Definition setInput (value : jsstring) (st : state) : state :=
  mkState value (output st) (error st) (errorLine st) (copied st)
          (indentSize st).

Definition setIndentSize (n : N) (st : state) : state :=
  mkState (input st) (output st) (error st) (errorLine st) (copied st) n.

(** The numbers of the gutter: those of the output, of the input when
    there is no output. *)
Definition lineNumbers (st : state) : list N :=
  match output st with
  | _ :: _ => map_index (fun _ i => (i + 1)%N) 0%N (split_on nl (output st))
  | [] =>
      match input st with
      | _ :: _ => map_index (fun _ i => (i + 1)%N) 0%N (split_on nl (input st))
      | [] => []
      end
  end.

(** What the output panel shows: the markup with its gutter, or a
    placeholder (a string is true when it is neither null nor empty). *)
Inductive panel : Type :=
| Highlighted (html : jsstring) (gutter : list N)
| Placeholder (text : jsstring).

Definition outputPanel (st : state) : panel :=
  match output st with
  | _ :: _ => Highlighted (syntaxHighlight (output st)) (lineNumbers st)
  | [] =>
      match error st with
      | Some (_ :: _) => Placeholder (lit "Fix the error to see output")
      | _ => Placeholder (lit "Formatted JSON will appear here")
      end
  end.

End Page.


(** ** Specification-side notions *)

(** *** The language of a pattern *)

(** [spans r p x q]: the pattern [r] can match the text [x] found after
    the code unit [p] and before the text [q], whatever the priority of the
    choices made. *)
Inductive iter (A : option N -> jsstring -> jsstring -> Prop)
  : option N -> jsstring -> jsstring -> Prop :=
| iter_nil p q : iter A p [] q
| iter_cons p x y q :
    A p x (y ++ q) -> x <> [] -> iter A (lastp p x) y q ->
    iter A p (x ++ y) q.

Fixpoint spans (r : regex) (p : option N) (x q : jsstring) : Prop :=
  match r with
  | Eps => x = []
  | Class c => exists a, x = [a] /\ c a = true
  | Seq a b =>
      exists x1 x2, x = x1 ++ x2 /\ spans a p x1 (x2 ++ q)
                    /\ spans b (lastp p x1) x2 q
  | Alt a b => spans a p x q \/ spans b p x q
  | Star a => iter (spans a) p x q
  | Opt a => x = [] \/ spans a p x q
  | Group _ a => spans a p x q
  | WordB =>
      x = [] /\ xorb (is_word_opt p) (is_word_opt (hd_error q)) = true
  | Bos => x = [] /\ p = None
  | Eos => x = [] /\ q = []
  end.

(** One move of the matcher: it reads [x] and hands over a state. *)
Definition step (r : regex) (st st' : mstate) : Prop :=
  exists x, rest st = x ++ rest st' /\ prev st' = lastp (prev st) x
            /\ spans r (prev st) x (rest st').

(** Every character class of [r] lies within [P]. *)
Fixpoint classes_within (P : N -> Prop) (r : regex) : Prop :=
  match r with
  | Class p => forall c, p c = true -> P c
  | Seq a b | Alt a b => classes_within P a /\ classes_within P b
  | Star a | Opt a | Group _ a => classes_within P a
  | _ => True
  end.

(** What a greedy run over the code units [xs] hands to its continuation:
    the longest run first, then the shorter ones. *)
Fixpoint greedy (k : mstate -> option mstate) (pr : option N)
  (xs s : jsstring) (cs : captures) : option mstate :=
  match xs with
  | [] => k (MState pr s cs)
  | c :: xs' =>
      match greedy k (Some c) xs' s cs with
      | Some res => Some res
      | None => k (MState pr (c :: xs' ++ s) cs)
      end
  end.

(** The text an item of a scan stands for in the input. *)
Definition raw (it : item) : jsstring :=
  match it with
  | Lit c => [c]
  | Hit m _ => m
  end.

Definition digits (x : jsstring) : Prop := Forall (fun c => is_digit c = true) x.
Definition spaces (x : jsstring) : Prop := Forall (fun c => is_space c = true) x.

(** *** Error messages *)

(** The marker of an error message as the specification words it: the
    word [w] in any case, white space, decimal digits.  [marker_here w s]
    gives the digits when [s] starts with a marker; [first_marker w s], the
    digits of the leftmost marker of [s]. *)
Fixpoint strip_ci (w s : jsstring) : option jsstring :=
  match w with
  | [] => Some s
  | b :: w' =>
      match s with
      | a :: s' =>
          if (a =? b)%N || (a =? upcase b)%N then strip_ci w' s' else None
      | [] => None
      end
  end.

Definition marker_here (w s : jsstring) : option jsstring :=
  match strip_ci w s with
  | Some (c :: r) =>
      if is_space c then
        match take_while is_digit (drop_while is_space r) with
        | [] => None
        | d :: ds => Some (d :: ds)
        end
      else None
  | _ => None
  end.

Fixpoint first_marker (w s : jsstring) : option jsstring :=
  match marker_here w s with
  | Some ds => Some ds
  | None =>
      match s with
      | [] => None
      | _ :: s' => first_marker w s'
      end
  end.

(** The number a message reports after the word [w], if any. *)
Definition reported (w message : jsstring) : option N :=
  option_map decimal (first_marker w message).

(** [x] is the word [w] up to the case of ASCII letters. *)
Definition ci_eq (x w : jsstring) : Prop :=
  Forall2 (fun a b => a = b \/ a = upcase b) x w.

(** [s] holds a marker somewhere: the word [w] in any case, at least one
    white space, a digit. *)
Definition has_marker (w s : jsstring) : Prop :=
  exists pre x ws d post,
    s = pre ++ x ++ ws ++ d :: post
    /\ ci_eq x w /\ ws <> [] /\ spaces ws /\ is_digit d = true.

(** *** Numbers *)

(** The natural numbers that are doubles: a significand below [2 ^ 53]
    times a power of two, below [2 ^ 1024]. *)
Definition is_double (v : N) : Prop :=
  exists m e, (v = m * 2 ^ e /\ m < 2 ^ 53 /\ v < 2 ^ 1024)%N.

Definition dist (a b : N) : N := (N.max a b - N.min a b)%N.

(** [d] is the double nearest to [n]: no double is nearer, and a double
    [w] as near as [v] is an odd multiple of the gap where [v] is an even
    one (the tie goes to the even significand); [Infinity] stands for the
    numbers from [2 ^ 1024 - 2 ^ 970] on, which round to [2 ^ 1024]. *)
Definition nearest_double (n : N) (d : jsnumber) : Prop :=
  match d with
  | Finite v =>
      (n < 2 ^ 1024 - 2 ^ 970)%N
      /\ is_double v
      /\ forall w, is_double w -> w <> v ->
           (dist v n < dist w n)%N
           \/ (dist v n = dist w n /\ (2 * dist v w | v)%N)
  | Infinity => (2 ^ 1024 - 2 ^ 970 <= n)%N
  end.

(** *** Locations *)

(** The counters of the character walk: what one character does to
    (line, column), and where a walk over [chars] ends. *)
Definition walk_step (lc : N * N) (char : jsstring) : N * N :=
  if is_newline char then (fst lc + 1, 1)%N else (fst lc, snd lc + 1)%N.

Definition location_after (chars : list jsstring) : N * N :=
  fold_left walk_step chars (1%N, 1%N).

Definition no_newline (chars : list jsstring) : bool :=
  forallb (fun char => negb (is_newline char)) chars.

(** *** Tokens *)

(** A numeric literal as the specification words it: an optional minus, an
    integer part, an optional fraction, an optional exponent. *)
Inductive numeric_literal : jsstring -> Prop :=
| NumLit sign int frac exp :
    sign = [] \/ sign = [45%N] ->
    int <> [] -> digits int ->
    frac = [] \/ (exists fd, frac = 46%N :: fd /\ digits fd) ->
    exp = [] \/
      (exists e sg ed, exp = e :: sg ++ ed /\ (e = 101%N \/ e = 69%N)
                       /\ (sg = [] \/ sg = [43%N] \/ sg = [45%N])
                       /\ ed <> [] /\ digits ed) ->
    numeric_literal (sign ++ int ++ frac ++ exp).

(** The shape of the text of a token of each class. *)
Inductive tok_shape : token_class -> jsstring -> Prop :=
| S_String body : tok_shape TString (dq :: body ++ [dq])
| S_Key body ws :
    spaces ws -> tok_shape TKey (dq :: body ++ [dq] ++ ws ++ [colon])
| S_True : tok_shape TBoolean (lit "true")
| S_False : tok_shape TBoolean (lit "false")
| S_Null : tok_shape TNull (lit "null")
| S_Number m : numeric_literal m -> tok_shape TNumber m.

(** The code units of numeric literals. *)
Definition is_numchar (c : N) : bool :=
  is_digit c || (c =? 45)%N || (c =? 46)%N || (c =? 43)%N
  || (c =? 101)%N || (c =? 69)%N.

Fixpoint starts_with (w s : jsstring) : bool :=
  match w with
  | [] => true
  | a :: w' =>
      match s with
      | b :: s' => (a =? b)%N && starts_with w' s'
      | [] => false
      end
  end.

(** A text at which a token may start. *)
Definition may_start (text : jsstring) : bool :=
  match text with
  | [] => false
  | a :: _ =>
      (a =? dq)%N || (a =? 45)%N || is_digit a
      || starts_with (lit "true") text || starts_with (lit "false") text
      || starts_with (lit "null") text
  end.

(** The text goes on with optional white space and a colon. *)
Definition colon_next (q : jsstring) : bool :=
  match drop_while is_space q with
  | c :: _ => (c =? colon)%N
  | [] => false
  end.

(** *** Escaping and markup *)

(** The escaping step as one substitution, code unit by code unit. *)
Definition escape_char (c : N) : jsstring :=
  if (c =? amp)%N then lit "&amp;"
  else if (c =? lt)%N then lit "&lt;"
  else if (c =? gt)%N then lit "&gt;"
  else [c].

Definition no_angle (s : jsstring) : Prop :=
  Forall (fun c => c <> lt /\ c <> gt) s.

(** Every ampersand is followed by the name of one of the three
    entities. *)
Fixpoint entities_ok (s : jsstring) : bool :=
  match s with
  | [] => true
  | c :: r =>
      (negb (c =? amp)%N || starts_with (lit "amp;") r
       || starts_with (lit "lt;") r || starts_with (lit "gt;") r)
      && entities_ok r
  end.

(** The code units of the three entities. *)
Definition is_entity_char (c : N) : bool :=
  existsb (N.eqb c) (lit "&amp;lt;gt;").

(** [decorates tag out src]: [out] is [src] with texts satisfying [tag]
    inserted, nothing of [src] removed or changed. *)
Inductive decorates (tag : jsstring -> Prop) : jsstring -> jsstring -> Prop :=
| D_nil : decorates tag [] []
| D_copy c out src :
    decorates tag out src -> decorates tag (c :: out) (c :: src)
| D_tag t out src :
    tag t -> decorates tag out src -> decorates tag (t ++ out) src.

Definition Part0_tag (t : jsstring) : Prop :=
  t = span_close \/ exists c, t = Part0.span_open c.

(** What the variant of [page.tsx] inserts: its span tags, and the quote
    it adds to a key. *)
Definition Page_tag (t : jsstring) : Prop :=
  t = span_close \/ (exists c, t = Page.span_open c) \/ t = [dq].

(** The opening tags as they reach the page: a span with a class name in
    the variant of [part_000], a span with a colour in that of
    [page.tsx]. *)
Definition class_span (name : jsstring) : jsstring :=
  lit "<span class=" ++ [dq] ++ name ++ [dq] ++ lit ">".

Definition colour_span (colour : jsstring) : jsstring :=
  lit "<span style=" ++ [dq] ++ lit "color:" ++ colour ++ [dq] ++ lit ">".

(** The markup of the five classes of tokens: the class name in the
    variant of [part_000], the colour in that of [page.tsx] (booleans and
    null have one colour). *)
Inductive token_markup : token_class -> jsstring -> jsstring -> Prop :=
| Markup_key : token_markup TKey (lit "json-key") (lit "#9cdcfe")
| Markup_string : token_markup TString (lit "json-string") (lit "#ce9178")
| Markup_number : token_markup TNumber (lit "json-number") (lit "#b5cea8")
| Markup_boolean : token_markup TBoolean (lit "json-boolean") (lit "#569cd6")
| Markup_null : token_markup TNull (lit "json-null") (lit "#569cd6").

(** A pass that puts each of the characters [chars] between [opening] and
    the closing tag and copies every other code unit. *)
Definition wrap_chars (chars opening : jsstring) (x : N) : jsstring :=
  if existsb (N.eqb x) chars then opening ++ [x] ++ lit "</span>" else [x].

(** The brace and bracket passes, code unit by code unit. *)
Definition wrap_where (p : N -> bool) (c : token_class) (x : N) : jsstring :=
  if p x then Page.span_open c ++ [x] ++ span_close else [x].

(** What a callback must do for entities to stay whole. *)
Definition keeps_entities (f : jsstring -> captures -> jsstring) : Prop :=
  forall c m cs r z,
    tok_shape c m -> entities_ok (m ++ r) = true -> entities_ok z = true ->
    entities_ok (f m cs ++ z) = true.

(** *** Handlers *)

(** An input that is empty or white space only. *)
Definition blank (s : jsstring) : bool := forallb is_space s.

Definition enter_json : jsstring := lit "Please enter some JSON to validate".

(** *** Examples *)

(** A key with its colon, the serialized object holding it, and a string
    holding one brace. *)
Definition key_name : jsstring := [dq] ++ lit "name" ++ [dq; colon].
Definition name_doc : jsstring := [123%N] ++ key_name ++ lit "1" ++ [125%N].
Definition brace_string : jsstring := [dq; 123%N; dq].

(** A parser that rejects everything with one message, a serializer, and
    a state of each variant. *)
Definition reject (message : jsstring) (_ : jsstring) : parse_result unit :=
  Thrown message.
Definition print_nothing (_ : json unit) (_ : option N) : jsstring := [].
Definition page_state (input output : jsstring) : Page.state :=
  Page.mkState input output None None false 2.
Definition part0_state (input output : jsstring) : Part0.state :=
  Part0.mkState input output None false [].

(** *** Counting lines and columns *)

(** The newlines among some characters, and the number of characters
    after the last of them. *)
Definition newlines (chars : list jsstring) : nat :=
  length (filter is_newline chars).

Fixpoint run_length {A : Type} (p : A -> bool) (l : list A) : nat :=
  match l with
  | [] => 0
  | x :: l' => if p x then S (run_length p l') else 0
  end.

Definition last_line_length (chars : list jsstring) : nat :=
  run_length (fun char => negb (is_newline char)) (rev chars).

Definition no_surrogate (t : jsstring) : bool :=
  forallb (fun c => negb (is_high_surrogate c)) t.

(** *** Well-nested markup *)

(** Text without angle brackets and spans opened by a tag of [opener],
    closed by [span_close], properly nested. *)
Inductive well_nested (opener : jsstring -> Prop) : jsstring -> Prop :=
| WN_nil : well_nested opener []
| WN_text c x :
    c <> lt -> c <> gt -> well_nested opener x -> well_nested opener (c :: x)
| WN_span o body x :
    opener o -> well_nested opener body -> well_nested opener x ->
    well_nested opener (o ++ body ++ span_close ++ x).

Definition Part0_opener (o : jsstring) : Prop := exists c, o = Part0.span_open c.
Definition Page_opener (o : jsstring) : Prop := exists c, o = Page.span_open c.

(** *** States *)

(** The markup kept by the variant of [part_000] is that of its output. *)
Definition in_sync (st : Part0.state) : Prop :=
  Part0.highlightedOutput st = Part0.syntaxHighlight (Part0.output st).

(** The text whose lines the gutter of [page.tsx] numbers. *)
Definition shown_text (st : Page.state) : jsstring :=
  match Page.output st with
  | [] => Page.input st
  | _ :: _ => Page.output st
  end.

(** The numbers from 1 to the number of lines of a text. *)
Definition line_numbers_of (text : jsstring) : list N :=
  map N.of_nat (seq 1 (S (count_occ N.eq_dec text nl))).

(** A parser that accepts everything as the value [null], and a
    serializer that prints it. *)
Definition accept_null (_ : jsstring) : parse_result unit := Parsed JNull.
Definition print_null (_ : json unit) (_ : option N) : jsstring := lit "null".

(** ** Facts on lists of code units *)

Lemma lastp_nil p : lastp p [] = p.
Proof. reflexivity. Qed.

Lemma lastp_app p x y : lastp p (x ++ y) = lastp (lastp p x) y.
Proof.
  unfold lastp. rewrite rev_app_distr.
  destruct (rev y) as [|c r]; simpl; [reflexivity | reflexivity].
Qed.

Lemma lastp_cons p c x : lastp p (c :: x) = lastp (Some c) x.
Proof. exact (lastp_app p [c] x). Qed.

Lemma lastp_none p x : lastp p x = None -> p = None /\ x = [].
Proof.
  unfold lastp. destruct (rev x) as [|c r] eqn:E; [|discriminate].
  intros ->. split; [reflexivity|].
  apply (f_equal (@rev N)) in E. rewrite rev_involutive in E. exact E.
Qed.

Lemma consumed_app x r : consumed (x ++ r) r = x.
Proof.
  unfold consumed. rewrite length_app.
  replace (length x + length r - length r) with (length x) by lia.
  rewrite firstn_app, Nat.sub_diag, firstn_all. simpl. apply app_nil_r.
Qed.

Lemma take_drop_while p s : take_while p s ++ drop_while p s = s.
Proof.
  induction s as [|c s IH]; simpl; [reflexivity|].
  destruct (p c); simpl; [now rewrite IH | reflexivity].
Qed.

Lemma take_while_all p s : Forall (fun c => p c = true) (take_while p s).
Proof.
  induction s as [|c s IH]; simpl; [constructor|].
  destruct (p c) eqn:E; [constructor; assumption | constructor].
Qed.

Lemma drop_while_head p s :
  match drop_while p s with [] => True | c :: _ => p c = false end.
Proof.
  induction s as [|c s IH]; simpl; [exact I|].
  destruct (p c) eqn:E; [exact IH | exact E].
Qed.

Lemma take_while_app p xs s :
  Forall (fun c => p c = true) xs ->
  match s with [] => True | c :: _ => p c = false end ->
  take_while p (xs ++ s) = xs.
Proof.
  intros Hx Hs. induction Hx as [|c xs Hc _ IH]; simpl.
  - destruct s as [|c s]; simpl; [reflexivity | now rewrite Hs].
  - now rewrite Hc, IH.
Qed.

Lemma drop_while_app p xs s :
  Forall (fun c => p c = true) xs ->
  match s with [] => True | c :: _ => p c = false end ->
  drop_while p (xs ++ s) = s.
Proof.
  intros Hx Hs. induction Hx as [|c xs Hc _ IH]; simpl.
  - destruct s as [|c s]; simpl; [reflexivity | now rewrite Hs].
  - now rewrite Hc, IH.
Qed.

(** ** Doubles *)

Section Doubles.

Local Open Scope N_scope.

Lemma pow2_pos e : 0 < 2 ^ e.
Proof. apply N.neq_0_lt_0, N.pow_nonzero. discriminate. Qed.

Lemma pow2_split a b : a <= b -> 2 ^ b = 2 ^ (b - a) * 2 ^ a.
Proof. intros H. rewrite <- N.pow_add_r. f_equal. lia. Qed.

(** No double lies strictly between two neighbouring multiples of the
    unit [2 ^ e] of a significand [q] of 53 bits. *)
Lemma double_gap e q w :
  e = 0 \/ 2 ^ 52 <= q -> is_double w ->
  w <= 2 ^ e * q \/ 2 ^ e * (q + 1) <= w.
Proof.
  intros He (m & k & -> & Hm & _).
  destruct He as [-> | Hq]; [rewrite N.pow_0_r; lia|].
  destruct (N.le_gt_cases e k) as [Hk|Hk].
  - rewrite (pow2_split Hk). set (c := 2 ^ (k - e)). set (u := 2 ^ e).
    destruct (N.le_gt_cases (m * c) q) as [H|H].
    + left. replace (m * (c * u)) with (u * (m * c)) by lia.
      now apply N.mul_le_mono_l.
    + right. replace (m * (c * u)) with (u * (m * c)) by lia.
      apply N.mul_le_mono_l. lia.
  - left. assert (Hk' : k + 1 <= e) by lia.
    rewrite (pow2_split Hk'), N.pow_add_r, N.pow_1_r.
    pose proof (pow2_pos (e - (k + 1))) as Hc. pose proof (pow2_pos k) as Ha.
    set (c := 2 ^ (e - (k + 1))) in *. set (a := 2 ^ k) in *.
    assert (m * a <= 2 ^ 53 * a) by (apply N.mul_le_mono_r; lia).
    assert (1 * (a * 2) * 2 ^ 52 <= c * (a * 2) * q).
    { apply N.mul_le_mono; [apply N.mul_le_mono_r; lia | exact Hq]. }
    lia.
Qed.

(** Rounding the remainder [r] of [n] to the nearer multiple of the unit
    [u], a tie to the even one, gives a number as near to [n] as any
    number outside the gap. *)
Lemma round_nearest u q r n (up : bool) v :
  0 < u -> n = u * q + r -> r < u ->
  up = (u <? 2 * r) || ((u =? 2 * r) && N.odd q) ->
  v = (if up then q + 1 else q) * u ->
  forall w, w <= u * q \/ u * (q + 1) <= w -> w <> v ->
    dist v n < dist w n \/ (dist v n = dist w n /\ (2 * dist v w | v)).
Proof.
  intros Hu Hn Hr Hup Hv w Hw Hne.
  rewrite N.mul_add_distr_l, N.mul_1_r in Hw.
  pose proof (N.div2_odd q) as Hq.
  assert (Hq2 : u * q = 2 * (u * N.div2 q) + u * N.b2n (N.odd q)) by
    (rewrite Hq at 1; lia).
  assert (Hv' : v = if up then u * q + u else u * q) by (subst v; destruct up; lia).
  clear Hv Hq.
  unfold dist.
  destruct (N.ltb_spec u (2 * r)) as [H1|H1]; cbn [orb] in Hup.
  - subst up. left. lia.
  - destruct (N.eqb_spec u (2 * r)) as [H2|H2]; cbn [andb] in Hup.
    + destruct (N.odd q); cbn [N.b2n] in Hq2; subst up.
      * destruct (N.eq_dec w (u * q)) as [->|Hw'].
        -- right. split; [lia|]. exists (N.div2 q + 1).
           replace (N.max v (u * q) - N.min v (u * q)) with u by lia. lia.
        -- left. lia.
      * destruct (N.eq_dec w (u * q + u)) as [->|Hw'].
        -- right. split; [lia|]. exists (N.div2 q).
           replace (N.max v (u * q + u) - N.min v (u * q + u)) with u by lia.
           lia.
        -- left. lia.
    + subst up. left. lia.
Qed.

(** The double that the host computes is the nearest one. *)
Lemma to_double_nearest n : nearest_double n (to_double n).
Proof.
  unfold to_double.
  set (e := N.log2 n - 52).
  pose proof (pow2_pos e) as Hu.
  pose proof (N.div_mod n (2 ^ e)) as Hn.
  pose proof (N.mod_lt n (2 ^ e)) as Hr.
  set (u := 2 ^ e) in *. set (q := n / u) in *. set (r := n mod u) in *.
  specialize (Hn ltac:(lia)). specialize (Hr ltac:(lia)).
  (* the significand has at most 53 bits, exactly 53 when the unit is not 1 *)
  assert (Hq : q < 2 ^ 53 /\ (e = 0 \/ (1 <= e /\ 2 ^ 52 <= q))).
  { destruct (N.eq_dec n 0) as [E0|E0].
    - assert (e = 0) by (subst e; rewrite E0; reflexivity).
      assert (u = 1) by (subst u; rewrite H; reflexivity).
      split; [|now left]. nia.
    - pose proof (N.log2_spec n ltac:(lia)) as [L1 L2].
      destruct (N.le_gt_cases (N.log2 n) 52) as [HL|HL].
      + assert (e = 0) by (subst e; lia).
        assert (u = 1) by (subst u; rewrite H; reflexivity).
        split; [|now left].
        assert (2 ^ N.succ (N.log2 n) <= 2 ^ 53)
          by (apply N.pow_le_mono_r; lia).
        nia.
      + assert (EL : N.log2 n = 52 + e) by (subst e; lia).
        rewrite EL in L1. rewrite EL, <- N.add_succ_l in L2.
        rewrite N.pow_add_r in L1, L2. fold u in L1, L2.
        change (N.succ 52) with 53 in L2.
        split; [|right; split; [lia|]].
        * apply N.lt_nge. intros C.
          assert (2 ^ 53 * u <= q * u) by (apply N.mul_le_mono_r; exact C).
          lia.
        * apply N.lt_succ_r. apply N.nle_gt. intros C.
          assert ((q + 1) * u <= 2 ^ 52 * u) by (apply N.mul_le_mono_r; lia).
          lia. }
  destruct Hq as [Hq He].
  set (up := (u <? 2 * r) || ((u =? 2 * r) && N.odd q)).
  set (q' := if up then q + 1 else q).
  assert (Hq' : q <= q' <= q + 1) by (subst q'; destruct up; lia).
  (* whether the result is finite *)
  assert (Hfin : q' * u < 2 ^ 1024 <-> n < 2 ^ 1024 - 2 ^ 970).
  { destruct He as [He | [He He']].
    - assert (u = 1) by (subst u; rewrite He; reflexivity).
      split; intros _; nia.
    - destruct (N.lt_trichotomy e 971) as [C|[C|C]].
      + assert (u <= 2 ^ 970) by (apply N.pow_le_mono_r; lia).
        assert (q' * u <= 2 ^ 53 * 2 ^ 970)
          by (apply N.mul_le_mono; lia).
        assert (q * u <= (2 ^ 53 - 1) * 2 ^ 970)
          by (apply N.mul_le_mono; lia).
        split; intros _; lia.
      + assert (Eu : u = 2 ^ 971) by (subst u; now rewrite C).
        assert (Hup : if up then u <= 2 * r
                      else 2 * r <= u /\ (u = 2 * r -> N.odd q = false)).
        { subst up. destruct (N.ltb_spec u (2 * r));
            destruct (N.eqb_spec u (2 * r)); destruct (N.odd q);
            cbn [orb andb]; try lia; split; try lia; reflexivity. }
        destruct (N.lt_ge_cases q (2 ^ 53 - 1)) as [D|D].
        * assert ((q + 1) * u <= (2 ^ 53 - 1) * u)
            by (apply N.mul_le_mono_r; lia).
          assert (q' * u <= (q + 1) * u) by (apply N.mul_le_mono_r; lia).
          split; intros _; lia.
        * assert (Eq : q = 2 ^ 53 - 1) by lia.
          assert (Oq : N.odd q = true) by (rewrite Eq; reflexivity).
          subst q'. destruct up.
          -- rewrite Eq in *. split; intros; lia.
          -- destruct Hup as [A B]. rewrite Oq in B.
             assert (u <> 2 * r) by (intros E; discriminate (B E)).
             rewrite Eq in *. split; intros; lia.
      + assert (2 ^ 972 <= u) by (apply N.pow_le_mono_r; lia).
        assert (2 ^ 52 * 2 ^ 972 <= q * u) by (apply N.mul_le_mono; lia).
        assert (q * u <= q' * u) by (apply N.mul_le_mono_r; lia).
        split; intros; lia. }
  fold q'.
  destruct (N.ltb_spec (q' * u) (2 ^ 1024)) as [F|F]; cbn [nearest_double].
  - split; [now apply Hfin|]. split.
    + destruct (N.eq_dec q' (2 ^ 53)) as [E|E].
      * exists (2 ^ 52), (e + 1). rewrite E in *.
        rewrite N.pow_add_r. fold u. split; [lia|]. split; [reflexivity | lia].
      * exists q', e. fold u. split; [reflexivity|]. split; [lia | exact F].
    + intros w Hw Hne.
      apply (@round_nearest u q r n up (q' * u)); try assumption; try reflexivity.
      apply double_gap; [|exact Hw]. destruct He as [He|[_ He]]; auto.
  - apply N.le_ngt. intros C. apply Hfin in C. lia.
Qed.

(** The nearest double is unique. *)
Lemma nearest_double_unique n d d' :
  nearest_double n d -> nearest_double n d' -> d = d'.
Proof.
  destruct d as [v|], d' as [v'|]; cbn [nearest_double];
    intros H H'; try reflexivity; try (destruct H; lia); try (destruct H'; lia).
  destruct H as (_ & Dv & Hv), H' as (_ & Dv' & Hv').
  destruct (N.eq_dec v v') as [->|Hne]; [reflexivity | exfalso].
  destruct (Hv v' Dv' (not_eq_sym Hne)) as [A|[A (a & Ea)]];
    destruct (Hv' v Dv Hne) as [B|[B (b & Eb)]]; try lia.
  unfold dist in *.
  rewrite (N.max_comm v' v), (N.min_comm v' v) in Eb.
  set (g := N.max v v' - N.min v v') in *.
  assert (0 < g) by (subst g; lia).
  destruct (N.lt_trichotomy a b) as [C|[C|C]].
  - assert ((a + 1) * (2 * g) <= b * (2 * g)) by (apply N.mul_le_mono_r; lia).
    subst g. lia.
  - subst b. lia.
  - assert ((b + 1) * (2 * g) <= a * (2 * g)) by (apply N.mul_le_mono_r; lia).
    subst g. lia.
Qed.

(** Up to [2 ^ 53] every natural number is a double: it is its own
    nearest double. *)
Lemma nearest_double_small n d :
  n <= 2 ^ 53 -> nearest_double n d -> d = Finite n.
Proof.
  intros Hn H.
  assert (Dn : is_double n).
  { destruct (N.eq_dec n (2 ^ 53)) as [->|Hne].
    - exists (2 ^ 52), 1. repeat split; lia.
    - exists n, 0. rewrite N.pow_0_r. repeat split; lia. }
  destruct d as [v|]; cbn [nearest_double] in H; [|lia].
  destruct H as (_ & _ & Hv).
  destruct (N.eq_dec n v) as [->|Hne]; [reflexivity | exfalso].
  unfold dist in Hv. destruct (Hv n Dn Hne) as [A|[A _]]; lia.
Qed.

(** From [2 ^ 53] on, the nearest double is at least [2 ^ 53]. *)
Lemma nearest_double_large n v :
  2 ^ 53 <= n -> nearest_double n (Finite v) -> 2 ^ 53 <= v.
Proof.
  intros Hn (_ & _ & Hv). apply N.le_ngt. intros C.
  assert (D : is_double (2 ^ 53)) by (exists (2 ^ 52), 1; repeat split; lia).
  unfold dist in Hv. destruct (Hv (2 ^ 53) D) as [A|[A _]]; lia.
Qed.

(** An index of a text is below [2 ^ 53]; the nearest double of an offset
    and the offset as written compare alike with it. *)
Lemma offset_as_written p d i :
  i < 2 ^ 53 -> nearest_double p d ->
  match d with
  | Finite v => (v <=? i) = (p <=? i)
  | Infinity => (p <=? i) = false
  end.
Proof.
  intros Hi H. destruct (N.le_gt_cases p (2 ^ 53)) as [Hp|Hp].
  - rewrite (@nearest_double_small p d Hp H). reflexivity.
  - destruct d as [v|].
    + pose proof (@nearest_double_large p v ltac:(lia) H).
      destruct (N.leb_spec v i), (N.leb_spec p i); try reflexivity; lia.
    + apply N.leb_gt. lia.
Qed.

(** Only the number 0 gives the double 0. *)
Lemma nearest_double_zero n d :
  nearest_double n d -> (d = Finite 0 <-> n = 0).
Proof.
  intros H. split.
  - intros ->. destruct (N.eq_dec n 0) as [E|E]; [exact E | exfalso].
    destruct H as (_ & _ & Hv).
    assert (D : is_double 1) by (exists 1, 0; repeat split; lia).
    unfold dist in Hv. destruct (Hv 1 D) as [A|[A (c & Ec)]]; lia.
  - intros ->. apply nearest_double_small; [lia | exact H].
Qed.

(** A number of 53 bits is returned as written; the next one is not. *)
Lemma to_double_examples :
  to_double 9007199254740992 = Finite 9007199254740992
  /\ to_double 9007199254740993 = Finite 9007199254740992
  /\ to_double 9007199254740995 = Finite 9007199254740996
  /\ to_double (2 ^ 1024 - 2 ^ 970 - 1) = Finite (2 ^ 1024 - 2 ^ 971)
  /\ to_double (2 ^ 1024 - 2 ^ 970) = Infinity
  /\ to_double (10 ^ 400) = Infinity.
Proof. repeat split; vm_compute; reflexivity. Qed.

End Doubles.

(** ** The matcher only finds texts of the pattern's language *)

Lemma step_refl r st : spans r (prev st) [] (rest st) -> step r st st.
Proof. intros H. exists []. repeat split; assumption. Qed.

Lemma star_loop_sound a k :
  (forall st k res, run a st k = Some res ->
     exists st', step a st st' /\ k st' = Some res) ->
  forall n st res,
    star_loop (run a) (groups a) k n st = Some res ->
    exists st', step (Star a) st st' /\ k st' = Some res.
Proof.
  intros IHa. induction n as [|n IHn]; intros st res H; cbn [star_loop] in H.
  - exists st. split; [apply step_refl; constructor | exact H].
  - match type of H with
    | match ?X with _ => _ end = _ => destruct X as [r1|] eqn:E
    end.
    + injection H as ->.
      apply IHa in E. destruct E as (st1 & (x & Ex & Px & Sx) & Hk).
      cbn [rest prev] in Ex, Px, Sx.
      destruct (length (rest st1) <? length (rest st)) eqn:Hl; [|discriminate].
      apply Nat.ltb_lt in Hl.
      apply IHn in Hk. destruct Hk as (st2 & (y & Ey & Py & Sy) & Hk).
      exists st2. split; [|exact Hk].
      exists (x ++ y). repeat split.
      * rewrite Ex, Ey. apply app_assoc.
      * rewrite Py, Px. symmetry. apply lastp_app.
      * cbn [spans] in *. apply iter_cons.
        -- now rewrite <- Ey.
        -- intros ->. rewrite Ex in Hl. cbn [app] in Hl. lia.
        -- now rewrite <- Px.
    + exists st. split; [apply step_refl; constructor | exact H].
Qed.

Lemma run_sound r : forall st k res,
  run r st k = Some res -> exists st', step r st st' /\ k st' = Some res.
Proof.
  induction r as [|p|a IHa b IHb|a IHa b IHb|a IHa|a IHa|i a IHa| | |];
    intros st k res H; cbn [run] in H.
  - exists st. split; [apply step_refl; reflexivity | exact H].
  - destruct (rest st) as [|c s'] eqn:E; [discriminate|].
    destruct (p c) eqn:Ep; [|discriminate].
    eexists. split; [|exact H].
    exists [c]. cbn [rest prev]. repeat split; [exact E|].
    exists c. split; [reflexivity | exact Ep].
  - apply IHa in H. destruct H as (st1 & (x & Ex & Px & Sx) & H).
    apply IHb in H. destruct H as (st2 & (y & Ey & Py & Sy) & H).
    exists st2. split; [|exact H].
    exists (x ++ y). repeat split.
    + rewrite Ex, Ey. apply app_assoc.
    + rewrite Py, Px. symmetry. apply lastp_app.
    + exists x, y. repeat split.
      * now rewrite <- Ey.
      * now rewrite <- Px.
  - destruct (run a st k) as [r1|] eqn:E.
    + injection H as ->. apply IHa in E.
      destruct E as (st1 & (x & Ex & Px & Sx) & H).
      exists st1. split; [|exact H].
      exists x. repeat split; try assumption. left. exact Sx.
    + apply IHb in H. destruct H as (st1 & (x & Ex & Px & Sx) & H).
      exists st1. split; [|exact H].
      exists x. repeat split; try assumption. right. exact Sx.
  - eapply star_loop_sound; eauto.
  - match type of H with
    | match ?X with _ => _ end = _ => destruct X as [r1|] eqn:E
    end.
    + injection H as ->. apply IHa in E.
      destruct E as (st1 & (x & Ex & Px & Sx) & H).
      destruct (length (rest st1) <? length (rest st)) eqn:Hl; [|discriminate].
      exists st1. split; [|exact H].
      exists x. repeat split; try assumption. right. exact Sx.
    + exists st. split; [apply step_refl; left; reflexivity | exact H].
  - apply IHa in H. destruct H as (st1 & (x & Ex & Px & Sx) & H).
    eexists. split; [|exact H].
    exists x. cbn [rest prev]. repeat split; assumption.
  - destruct (xorb _ _) eqn:E; [|discriminate].
    exists st. split; [apply step_refl; split; [reflexivity | exact E] | exact H].
  - destruct (prev st) eqn:E; [discriminate|].
    exists st. split; [apply step_refl; split; [reflexivity | exact E] | exact H].
  - destruct (rest st) eqn:E; [|discriminate].
    exists st. split; [apply step_refl; split; [reflexivity | exact E] | exact H].
Qed.

(** The text of a match is made of code units its classes accept. *)
Lemma iter_within (P : N -> Prop) (A : option N -> jsstring -> jsstring -> Prop) :
  (forall p x q, A p x q -> Forall P x) ->
  forall p x q, iter A p x q -> Forall P x.
Proof.
  intros HA p x q H.
  induction H as [|p x y q Hx _ _ IH]; [constructor|].
  apply Forall_app. split; [eapply HA; eauto | exact IH].
Qed.

Lemma spans_within (P : N -> Prop) r :
  classes_within P r -> forall p x q, spans r p x q -> Forall P x.
Proof.
  induction r as [|c|a IHa b IHb|a IHa b IHb|a IHa|a IHa|i a IHa| | |];
    cbn [classes_within spans]; intros W p x q H.
  - subst. constructor.
  - destruct H as (a & -> & Ha). constructor; [auto | constructor].
  - destruct W as [Wa Wb]. destruct H as (x1 & x2 & -> & H1 & H2).
    apply Forall_app. split; [eapply IHa | eapply IHb]; eauto.
  - destruct W as [Wa Wb]. destruct H as [H|H]; [eapply IHa | eapply IHb]; eauto.
  - eapply iter_within; [|exact H]. intros; eapply IHa; eauto.
  - destruct H as [->|H]; [constructor | eapply IHa; eauto].
  - eapply IHa; eauto.
  - destruct H as [-> _]. constructor.
  - destruct H as [-> _]. constructor.
  - destruct H as [-> _]. constructor.
Qed.

(** A successful attempt, in terms of the language. *)
Lemma match_here_sound re p s st :
  match_here re p s = Some st ->
  s = consumed s (rest st) ++ rest st
  /\ spans re p (consumed s (rest st)) (rest st).
Proof.
  unfold match_here. intros H. apply run_sound in H.
  destruct H as (st' & (x & Ex & Px & Sx) & E). injection E as ->.
  cbn [rest prev] in Ex, Sx. rewrite Ex, consumed_app. split; [reflexivity | exact Sx].
Qed.

Lemma search_from_sound re : forall s p f,
  search_from re p s = Some f ->
  s = before f ++ matched f ++ after f
  /\ spans re (lastp p (before f)) (matched f) (after f).
Proof.
  induction s as [|c s IH]; intros p f H.
  - cbn [search_from] in H.
    destruct (match_here re p []) as [st|] eqn:E; [|discriminate].
    injection H as <-. cbn [before matched after app]. rewrite lastp_nil.
    eapply match_here_sound; eauto.
  - cbn [search_from] in H.
    destruct (match_here re p (c :: s)) as [st|] eqn:E.
    + injection H as <-. cbn [before matched after app]. rewrite lastp_nil.
      eapply match_here_sound; eauto.
    + destruct (search_from re (Some c) s) as [f'|] eqn:E'; [|discriminate].
      injection H as <-. cbn [before matched after].
      apply IH in E'. destruct E' as [E1 E2].
      split; [now rewrite E1 at 1 | now rewrite lastp_cons].
Qed.

(** A search succeeds as soon as an attempt does somewhere. *)
Lemma search_from_complete re : forall x p y st,
  match_here re (lastp p x) y = Some st ->
  search_from re p (x ++ y) <> None.
Proof.
  induction x as [|c x IH]; intros p y st H.
  - cbn [app]. rewrite lastp_nil in H.
    destruct y; cbn [search_from]; rewrite H; discriminate.
  - cbn [app search_from].
    destruct (match_here re p (c :: x ++ y)); [discriminate|].
    rewrite lastp_cons in H. specialize (IH _ _ _ H).
    destruct (search_from re (Some c) (x ++ y)); [discriminate | contradiction].
Qed.

(** ** Scans *)

Lemma scan_raw re : forall s p k,
  flat_map raw (scan re p k s) = skipn k s.
Proof.
  induction s as [|c s IH]; intros p k.
  - destruct k; cbn [scan]; [|reflexivity].
    destruct (match_here re p []) as [st|]; reflexivity.
  - destruct k as [|k]; [|cbn [scan skipn]; apply IH].
    cbn [scan].
    destruct (match_here re p (c :: s)) as [st|]; cbn [flat_map raw skipn].
    + unfold consumed.
      destruct (length (c :: s) - length (rest st)) as [|n] eqn:En.
      * cbn [firstn app flat_map raw]. now rewrite IH.
      * cbn [firstn app]. rewrite IH. now rewrite firstn_skipn.
    + cbn [app]. now rewrite IH.
Qed.

Lemma scan_hit re : forall s p k m cs,
  In (Hit m cs) (scan re p k s) -> exists p' q, spans re p' m q.
Proof.
  induction s as [|c s IH]; intros p k m cs H.
  - destruct k; cbn [scan] in H; [|contradiction].
    destruct (match_here re p []) as [st|] eqn:E; [|contradiction].
    destruct H as [H|[]]. injection H as <- <-.
    apply match_here_sound in E. destruct E as [_ E]. eauto.
  - destruct k as [|k]; [|cbn [scan] in H; eapply IH; eauto].
    cbn [scan] in H.
    destruct (match_here re p (c :: s)) as [st|] eqn:E.
    + destruct H as [H|H].
      * injection H as <- <-.
        apply match_here_sound in E. destruct E as [_ E]. eauto.
      * destruct (length (c :: s) - length (rest st)).
        -- destruct H as [H|H]; [discriminate | eapply IH; eauto].
        -- eapply IH; eauto.
    + destruct H as [H|H]; [discriminate | eapply IH; eauto].
Qed.

(** A global replacement by a pattern that is one character class works
    code unit by code unit. *)
Lemma scan_class i p : forall s pr,
  scan (Group i (Class p)) pr 0 s
  = map (fun c => if p c then Hit [c] [(i, [c])] else Lit c) s.
Proof.
  induction s as [|c s IH]; intros pr; [reflexivity|].
  cbn [scan map]. unfold match_here. cbn [run rest caps prev].
  destruct (p c) eqn:E.
  - cbn [rest caps]. unfold consumed. cbn [length].
    replace (S (length s) - length s) with 1 by lia.
    cbn [firstn]. now rewrite IH.
  - now rewrite IH.
Qed.

Lemma scan_chr p : forall s pr,
  scan (Class p) pr 0 s
  = map (fun c => if p c then Hit [c] [] else Lit c) s.
Proof.
  induction s as [|c s IH]; intros pr; [reflexivity|].
  cbn [scan map]. unfold match_here. cbn [run rest caps prev].
  destruct (p c) eqn:E.
  - cbn [rest caps]. unfold consumed. cbn [length].
    replace (S (length s) - length s) with 1 by lia.
    cbn [firstn]. now rewrite IH.
  - now rewrite IH.
Qed.

(** ** Shapes of matches *)

Lemma spans_Chr c p x q : spans (Chr c) p x q -> x = [c].
Proof.
  intros (a & -> & E). apply N.eqb_eq in E. now subst.
Qed.

Lemma spans_Str : forall w p x q, spans (Str w) p x q -> x = w.
Proof.
  induction w as [|c w IH]; intros p x q H; cbn [Str spans] in H.
  - exact H.
  - destruct H as (x1 & x2 & -> & H1 & H2).
    apply spans_Chr in H1. apply IH in H2. now subst.
Qed.

Lemma spans_Star_class c p x q :
  spans (Star (Class c)) p x q -> Forall (fun a => c a = true) x.
Proof.
  apply (@spans_within (fun a => c a = true) (Star (Class c))).
  cbn. auto.
Qed.

Lemma spans_Plus_class c p x q :
  spans (Plus (Class c)) p x q -> x <> [] /\ Forall (fun a => c a = true) x.
Proof.
  intros H. split.
  - destruct H as (x1 & x2 & -> & (a & -> & _) & _). discriminate.
  - revert H. apply (@spans_within (fun a => c a = true) (Plus (Class c))).
    cbn. auto.
Qed.

Lemma spans_string h p x q :
  spans (string_re h) p x q -> tok_shape TString x \/ tok_shape TKey x.
Proof.
  intros (x1 & x2 & -> & H1 & x3 & x4 & -> & _ & x5 & x6 & -> & H5 & H6).
  apply spans_Chr in H1, H5. subst x1 x5.
  destruct H6 as [->|(y1 & y2 & -> & Hy1 & Hy2)].
  - left. rewrite app_nil_r. apply S_String.
  - right. apply spans_Chr in Hy2. subst y2.
    apply spans_Star_class in Hy1.
    cbn [app]. apply (S_Key x3 Hy1).
Qed.

Lemma spans_keyword p x q :
  spans keyword_re p x q ->
  x = lit "true" \/ x = lit "false" \/ x = lit "null".
Proof.
  intros (x1 & x2 & -> & [-> _] & x3 & x4 & -> & H3 & [-> _]).
  rewrite app_nil_r. cbn [app].
  destruct H3 as [H|[H|H]]; apply spans_Str in H; auto.
Qed.

Lemma spans_number p x q : spans number_re p x q -> numeric_literal x.
Proof.
  intros (sg & x2 & -> & Hs & int & x3 & -> & Hi & fr & ex & -> & Hf & He).
  apply spans_Plus_class in Hi. destruct Hi as [Hi1 Hi2].
  constructor; try assumption.
  - destruct Hs as [->|Hs]; [now left | right; eapply spans_Chr; eauto].
  - destruct Hf as [->|(d & fd & -> & Hd & Hfd)]; [now left | right].
    apply spans_Chr in Hd. subst d. apply spans_Star_class in Hfd.
    exists fd. split; [reflexivity | exact Hfd].
  - destruct He as [->|(e & r & -> & (a & -> & Ha) & sg' & ed & -> & Hsg & Hed)];
      [now left | right].
    apply spans_Plus_class in Hed. destruct Hed as [Hed1 Hed2].
    exists a, sg', ed. repeat split; try assumption.
    + apply orb_true_iff in Ha. destruct Ha as [Ha|Ha]; apply N.eqb_eq in Ha; auto.
    + destruct Hsg as [->|(b & -> & Hb)]; [now left | right].
      apply orb_true_iff in Hb. destruct Hb as [Hb|Hb]; apply N.eqb_eq in Hb;
        subst; auto.
Qed.

Lemma token_shape h p x q :
  spans (token_re h) p x q -> exists c, tok_shape c x.
Proof.
  intros [H|[H|H]].
  - apply spans_string in H. destruct H; eauto.
  - apply spans_keyword in H. destruct H as [->|[->| ->]]; eexists; constructor.
  - apply spans_number in H. eexists. apply S_Number. exact H.
Qed.

Lemma numeric_chars m :
  numeric_literal m -> Forall (fun c => is_numchar c = true) m.
Proof.
  assert (D : forall x, digits x -> Forall (fun c => is_numchar c = true) x).
  { intros x. apply Forall_impl. intros a Ha. unfold is_numchar. now rewrite Ha. }
  intros [sg int fr ex Hs _ Hi Hf He].
  repeat (apply Forall_app; split).
  - destruct Hs as [->| ->]; repeat constructor.
  - auto.
  - destruct Hf as [->|(fd & -> & Hfd)]; [constructor|].
    constructor; [reflexivity | auto].
  - destruct He as [->|(e & sg' & ed & -> & He & Hsg & _ & Hed)]; [constructor|].
    constructor.
    + destruct He as [->| ->]; reflexivity.
    + apply Forall_app. split; [|auto].
      destruct Hsg as [->|[->| ->]]; repeat constructor.
Qed.

(** ** The tests of the callback *)

Lemma test_false re m :
  (forall f, exec re m = Some f -> False) -> test re m = false.
Proof.
  unfold test. destruct (exec re m) as [f|]; [|reflexivity].
  intros H. destruct (H f eq_refl).
Qed.

Lemma test_true re x y st :
  match_here re (lastp None x) y = Some st -> test re (x ++ y) = true.
Proof.
  intros H. apply search_from_complete in H. unfold test, exec.
  destruct (search_from re None (x ++ y)); [reflexivity | contradiction].
Qed.

Lemma test_quote_true m : test (Seq Bos (Chr dq)) (dq :: m) = true.
Proof. apply (@test_true _ [] (dq :: m) (MState (Some dq) m [])). reflexivity. Qed.

Lemma test_quote_false m :
  hd_error m <> Some dq -> test (Seq Bos (Chr dq)) m = false.
Proof.
  intros Hm. apply test_false. intros f E.
  apply search_from_sound in E. destruct E as [E (x1 & x2 & Ex & [-> Hp] & H2)].
  apply spans_Chr in H2. apply lastp_none in Hp. destruct Hp as [_ Hb].
  rewrite Hb, Ex, H2 in E. subst m. apply Hm. reflexivity.
Qed.

Lemma test_colon_true x : test (Seq (Chr colon) Eos) (x ++ [colon]) = true.
Proof.
  apply (@test_true _ x [colon] (MState (Some colon) [] [])). reflexivity.
Qed.

Lemma exec_colon m f :
  exec (Seq (Chr colon) Eos) m = Some f ->
  m = before f ++ [colon] /\ matched f = [colon] /\ after f = [].
Proof.
  intros E. apply search_from_sound in E.
  destruct E as [E (x1 & x2 & Ex & H1 & [-> Hq])].
  apply spans_Chr in H1. subst x1. rewrite app_nil_r in Ex.
  rewrite E, Ex, Hq. auto.
Qed.

Lemma test_colon_false x c :
  c <> colon -> test (Seq (Chr colon) Eos) (x ++ [c]) = false.
Proof.
  intros Hc. apply test_false. intros f E.
  apply exec_colon in E. destruct E as [E _].
  apply app_inj_tail in E. destruct E as [_ E]. contradiction.
Qed.

Lemma test_word_false (P : N -> bool) re w m a :
  (forall p x q, spans re p x q -> x = w) -> In a w -> P a = false ->
  Forall (fun c => P c = true) m -> test re m = false.
Proof.
  intros Hre Ha HP Hm. apply test_false. intros f E.
  apply search_from_sound in E. destruct E as [E H].
  apply Hre in H. rewrite Forall_forall in Hm.
  assert (In a m) by (rewrite E, H; apply in_or_app; right; apply in_or_app; now left).
  apply Hm in H0. congruence.
Qed.

Lemma classify_shape c m : tok_shape c m -> classify m = c.
Proof.
  intros H. unfold classify. destruct H as [body|body ws Hws| | | |m Hm].
  - rewrite test_quote_true.
    change (dq :: body ++ [dq]) with ((dq :: body) ++ [dq]).
    rewrite test_colon_false; [reflexivity | discriminate].
  - rewrite test_quote_true.
    replace (dq :: body ++ [dq] ++ ws ++ [colon])
      with ((dq :: body ++ [dq] ++ ws) ++ [colon])
      by (cbn [app]; now rewrite <- !app_assoc).
    now rewrite test_colon_true.
  - reflexivity.
  - reflexivity.
  - reflexivity.
  - pose proof (numeric_chars Hm) as Hc.
    rewrite test_quote_false.
    2:{ destruct Hc as [|a m Ha _]; [discriminate|].
        cbn. intros E. injection E as ->. discriminate. }
    assert (T : test (Alt (Str (lit "true")) (Str (lit "false"))) m = false).
    { apply test_false. intros f E.
      apply search_from_sound in E. destruct E as [E [H|H]];
        apply spans_Str in H; rewrite Forall_forall in Hc.
      - assert (In 116%N m)
          by (rewrite E, H; apply in_or_app; right; apply in_or_app; left;
              cbn; auto).
        apply Hc in H0. discriminate.
      - assert (In 102%N m)
          by (rewrite E, H; apply in_or_app; right; apply in_or_app; left;
              cbn; auto).
        apply Hc in H0. discriminate. }
    rewrite T.
    rewrite (@test_word_false is_numchar (Str (lit "null")) (lit "null") m 110%N);
      try reflexivity; try assumption.
    + apply spans_Str.
    + cbn; auto.
Qed.

(** The shapes of two classes never meet. *)
Lemma tok_shape_unique c c' m : tok_shape c m -> tok_shape c' m -> c = c'.
Proof.
  intros H H'. apply classify_shape in H, H'. congruence.
Qed.

Lemma token_classification h s m cs :
  In (Hit m cs) (scan (token_re h) None 0 s) ->
  exists c, tok_shape c m /\ classify m = c.
Proof.
  intros H. apply scan_hit in H. destruct H as (p & q & H).
  apply token_shape in H. destruct H as (c & H).
  exists c. split; [exact H | now apply classify_shape].
Qed.

(** ** The escaping step *)

Lemma flat_map_flat_map {A B C : Type} (f : A -> list B) (g : B -> list C) s :
  flat_map g (flat_map f s) = flat_map (fun c => flat_map g (f c)) s.
Proof.
  induction s as [|a s IH]; [reflexivity|].
  cbn [flat_map]. now rewrite flat_map_app, IH.
Qed.

Lemma replace_class_text p t s :
  replace_all_text (Class p) [Text t] s
  = flat_map (fun c => if p c then t else [c]) s.
Proof.
  unfold replace_all_text, replace_all. rewrite scan_chr.
  rewrite flat_map_concat_map, map_map, <- flat_map_concat_map.
  apply flat_map_ext. intros c. destruct (p c); cbn; [apply app_nil_r | reflexivity].
Qed.

Lemma escape_pointwise s : escape s = flat_map escape_char s.
Proof.
  unfold escape, Chr. rewrite !replace_class_text, !flat_map_flat_map.
  apply flat_map_ext. intros c. unfold escape_char.
  rewrite (N.eqb_sym c amp), (N.eqb_sym c lt), (N.eqb_sym c gt).
  destruct (amp =? c)%N eqn:Ea; [reflexivity|].
  cbn [flat_map app]. rewrite app_nil_r.
  destruct (lt =? c)%N eqn:El; [reflexivity|].
  cbn [flat_map app]. rewrite app_nil_r.
  destruct (gt =? c)%N eqn:Eg; reflexivity.
Qed.

Lemma escape_char_cases c :
  (c = amp /\ escape_char c = lit "&amp;")
  \/ (c = lt /\ escape_char c = lit "&lt;")
  \/ (c = gt /\ escape_char c = lit "&gt;")
  \/ (c <> amp /\ c <> lt /\ c <> gt /\ escape_char c = [c]).
Proof.
  unfold escape_char.
  destruct (N.eqb_spec c amp) as [->|Ha]; [now left|].
  destruct (N.eqb_spec c lt) as [->|Hl]; [right; now left|].
  destruct (N.eqb_spec c gt) as [->|Hg]; [right; right; now left|].
  right; right; right. auto.
Qed.

Lemma escape_no_angle s : no_angle (escape s).
Proof.
  rewrite escape_pointwise. unfold no_angle.
  induction s as [|c s IH]; [constructor|].
  cbn [flat_map]. apply Forall_app. split; [|exact IH].
  destruct (escape_char_cases c) as [[_ ->]|[[_ ->]|[[_ ->]|(_ & Hl & Hg & ->)]]];
    repeat constructor; try discriminate; assumption.
Qed.

Lemma escape_entities s : entities_ok (escape s) = true.
Proof.
  rewrite escape_pointwise.
  induction s as [|c s IH]; [reflexivity|].
  cbn [flat_map].
  destruct (escape_char_cases c) as [[_ ->]|[[_ ->]|[[_ ->]|(Ha & _ & _ & ->)]]].
  - cbn [lit list_ascii_of_string map app]. cbn. exact IH.
  - cbn. exact IH.
  - cbn. exact IH.
  - cbn [app entities_ok]. rewrite IH.
    apply N.eqb_neq in Ha. rewrite Ha. reflexivity.
Qed.

(** ** Output as decorated input *)

Lemma decorates_refl tag s : decorates tag s s.
Proof. induction s; constructor; assumption. Qed.

Lemma decorates_app tag o1 s1 o2 s2 :
  decorates tag o1 s1 -> decorates tag o2 s2 ->
  decorates tag (o1 ++ o2) (s1 ++ s2).
Proof.
  intros H1 H2. induction H1 as [|c o s _ IH|t o s Ht _ IH]; cbn [app].
  - exact H2.
  - constructor. exact IH.
  - rewrite <- app_assoc. constructor; assumption.
Qed.

Lemma decorates_tag tag t : tag t -> decorates tag t [].
Proof.
  intros H. rewrite <- (app_nil_r t). constructor; [exact H | constructor].
Qed.

Lemma decorates_wrapped tag o m' m c :
  tag o -> tag c -> decorates tag m' m -> decorates tag (o ++ m' ++ c) m.
Proof.
  intros Ho Hc Hm. constructor; [exact Ho|].
  rewrite <- (app_nil_r m). apply decorates_app; [exact Hm|].
  now apply decorates_tag.
Qed.

Lemma decorates_render tag f items :
  (forall m cs, In (Hit m cs) items -> decorates tag (f m cs) m) ->
  decorates tag (flat_map (render f) items) (flat_map raw items).
Proof.
  induction items as [|it items IH]; intros H; [constructor|].
  cbn [flat_map]. apply decorates_app.
  - destruct it as [c|m cs]; cbn [render raw].
    + apply decorates_refl.
    + apply H. now left.
  - apply IH. intros m cs Hin. apply H. now right.
Qed.

Lemma decorates_replace_all tag re f s :
  (forall m cs, decorates tag (f m cs) m) ->
  decorates tag (replace_all re f s) s.
Proof.
  intros H. unfold replace_all.
  rewrite <- (scan_raw re s None 0) at 2.
  apply decorates_render. intros; apply H.
Qed.

Lemma Part0_decorates s :
  decorates Part0_tag (Part0.syntaxHighlight s) (escape s).
Proof.
  unfold Part0.syntaxHighlight. apply decorates_replace_all.
  intros m cs. unfold Part0.replacer.
  apply decorates_wrapped; [right; eauto | now left | apply decorates_refl].
Qed.

(** ** The variant of [page.tsx]: the rewriting of keys and the two
    structural passes *)

Lemma replace_quotes m : replace_all_text (Chr dq) [Text [dq]] m = m.
Proof.
  unfold Chr. rewrite replace_class_text.
  induction m as [|c m IH]; [reflexivity|].
  cbn [flat_map]. rewrite IH.
  destruct (N.eqb_spec dq c) as [<-|_]; reflexivity.
Qed.

Lemma exec_colon_last b :
  exec (Seq (Chr colon) Eos) (b ++ [colon]) = Some (Found b [colon] [] []).
Proof.
  unfold exec. generalize (@None N).
  induction b as [|c b IH]; intros p; [reflexivity|].
  cbn [app search_from].
  assert (E : match_here (Seq (Chr colon) Eos) p (c :: b ++ [colon]) = None).
  { unfold match_here, Chr. cbn [run rest caps prev].
    destruct (colon =? c)%N; [destruct b|]; reflexivity. }
  rewrite E, IH. reflexivity.
Qed.

Lemma classify_key m :
  classify m = TKey -> exists b, m = b ++ [colon].
Proof.
  unfold classify. intros H.
  destruct (test (Seq Bos (Chr dq)) m).
  - unfold test in H.
    destruct (exec (Seq (Chr colon) Eos) m) as [f|] eqn:E; [|discriminate].
    apply exec_colon in E. destruct E as [E _]. eauto.
  - destruct (test (Alt _ _) m); [discriminate|].
    destruct (test (Str _) m); discriminate.
Qed.

(** A key is emitted with one more quote, before its colon. *)
Lemma Page_replacer_key m cs :
  classify m = TKey ->
  exists b, m = b ++ [colon] /\
    Page.replacer m cs = Page.span_open TKey ++ (b ++ [dq; colon]) ++ span_close.
Proof.
  intros H. destruct (classify_key m H) as (b & ->).
  exists b. split; [reflexivity|].
  unfold Page.replacer. rewrite H, replace_quotes.
  unfold replace_first. rewrite exec_colon_last. cbn [before after].
  now rewrite app_nil_r.
Qed.

Lemma Page_replacer_other m cs :
  classify m <> TKey ->
  Page.replacer m cs = Page.span_open (classify m) ++ m ++ span_close.
Proof.
  intros H. unfold Page.replacer. destruct (classify m); congruence.
Qed.

Lemma Page_token_pass_decorates s :
  decorates Page_tag (Page.token_pass s) (escape s).
Proof.
  unfold Page.token_pass. apply decorates_replace_all. intros m cs.
  destruct (classify m) eqn:E.
  1:{ destruct (Page_replacer_key m cs E) as (b & -> & ->).
      apply decorates_wrapped; [right; left; eauto | now left|].
      apply decorates_app; [apply decorates_refl|].
      refine (@D_tag Page_tag [dq] _ _ _ _); [right; now right | apply decorates_refl]. }
  all: rewrite Page_replacer_other by congruence;
    apply decorates_wrapped; [right; left; eauto | now left | apply decorates_refl].
Qed.

Lemma replace_wrap p c s :
  replace_all_text (Group 1 (Class p)) (Page.wrap_group1 c) s
  = flat_map (wrap_where p c) s.
Proof.
  unfold replace_all_text, replace_all. rewrite scan_class.
  rewrite flat_map_concat_map, map_map, <- flat_map_concat_map.
  apply flat_map_ext. intros x. unfold wrap_where.
  destruct (p x); [|reflexivity].
  cbn [render substitute Page.wrap_group1 flat_map capture Nat.eqb].
  now rewrite app_nil_r.
Qed.

Lemma Page_passes s :
  Page.syntaxHighlight s
  = flat_map (wrap_where Page.is_bracket TBracket)
      (flat_map (wrap_where Page.is_brace TBrace) (Page.token_pass s)).
Proof. unfold Page.syntaxHighlight. now rewrite !replace_wrap. Qed.

Lemma Page_tag_plain t :
  Page_tag t ->
  forallb (fun x => negb (Page.is_brace x) && negb (Page.is_bracket x)) t = true.
Proof.
  intros [->|[(c & ->)| ->]]; [reflexivity | destruct c; reflexivity | reflexivity].
Qed.

Lemma wrap_plain p c t :
  forallb (fun x => negb (p x)) t = true -> flat_map (wrap_where p c) t = t.
Proof.
  induction t as [|x t IH]; [reflexivity|].
  cbn [forallb flat_map]. intros H. apply andb_true_iff in H. destruct H as [Hx Ht].
  rewrite IH by exact Ht. unfold wrap_where.
  apply negb_true_iff in Hx. now rewrite Hx.
Qed.

Lemma decorates_wrap p c out src :
  (forall t, Page_tag t -> forallb (fun x => negb (p x)) t = true) ->
  decorates Page_tag out src ->
  decorates Page_tag (flat_map (wrap_where p c) out) src.
Proof.
  intros Hp H. induction H as [|x out src _ IH|t out src Ht _ IH].
  - constructor.
  - cbn [flat_map]. unfold wrap_where at 1. destruct (p x).
    + rewrite <- !app_assoc.
      refine (@D_tag Page_tag (Page.span_open c) _ _ _ _); [right; left; eauto|].
      cbn [app]. constructor.
      refine (@D_tag Page_tag span_close _ _ _ _); [now left | exact IH].
    + cbn [app]. constructor. exact IH.
  - rewrite flat_map_app, (wrap_plain p c t) by (apply Hp; exact Ht).
    constructor; assumption.
Qed.

Lemma Page_decorates s :
  decorates Page_tag (Page.syntaxHighlight s) (escape s).
Proof.
  rewrite Page_passes.
  apply decorates_wrap.
  { intros t Ht. apply Page_tag_plain in Ht.
    rewrite forallb_forall in *. intros x Hx. specialize (Ht x Hx).
    apply andb_true_iff in Ht. tauto. }
  apply decorates_wrap.
  { intros t Ht. apply Page_tag_plain in Ht.
    rewrite forallb_forall in *. intros x Hx. specialize (Ht x Hx).
    apply andb_true_iff in Ht. tauto. }
  apply Page_token_pass_decorates.
Qed.

(** ** Greedy runs over one character class *)

Lemma clear_nil cs : clear [] cs = cs.
Proof.
  unfold clear. induction cs as [|e cs IH]; [reflexivity|].
  cbn [filter existsb negb] in *. now rewrite IH.
Qed.

Lemma star_loop_class p k : forall xs n pr s cs,
  length (xs ++ s) <= n ->
  Forall (fun c => p c = true) xs ->
  match s with [] => True | c :: _ => p c = false end ->
  star_loop (run (Class p)) [] k n (MState pr (xs ++ s) cs)
  = greedy k pr xs s cs.
Proof.
  induction xs as [|x xs IH]; intros n pr s cs Hn Hxs Hs.
  - cbn [app greedy]. destruct n as [|n]; [reflexivity|].
    cbn [star_loop run rest prev caps].
    destruct s as [|c s]; [reflexivity|]. now rewrite Hs.
  - destruct n as [|n]; [cbn in Hn; lia|].
    inversion Hxs as [|? ? Hx Hxs']; subst.
    cbn [app greedy star_loop run rest prev caps]. rewrite Hx, clear_nil.
    cbn [rest length]. rewrite (proj2 (Nat.ltb_lt _ _)) by lia.
    fold (star_loop (run (Class p)) [] k).
    rewrite IH; [reflexivity | cbn in Hn; lia | assumption | assumption].
Qed.

Lemma run_star_class p k pr s cs :
  run (Star (Class p)) (MState pr s cs) k
  = greedy k pr (take_while p s) (drop_while p s) cs.
Proof.
  change (run (Star (Class p)) (MState pr s cs) k)
    with (star_loop (run (Class p)) [] k (length s) (MState pr s cs)).
  rewrite <- (take_drop_while p s) at 2.
  apply star_loop_class.
  - now rewrite take_drop_while.
  - apply take_while_all.
  - apply drop_while_head.
Qed.

Lemma run_plus_class p k pr s cs :
  run (Plus (Class p)) (MState pr s cs) k
  = match s with
    | [] => None
    | c :: s' =>
        if p c
        then greedy k (Some c) (take_while p s') (drop_while p s') cs
        else None
    end.
Proof.
  change (run (Plus (Class p)) (MState pr s cs) k)
    with (match s with
          | [] => None
          | c :: s' =>
              if p c then run (Star (Class p)) (MState (Some c) s' cs) k
              else None
          end).
  destruct s as [|c s']; [reflexivity|].
  now rewrite run_star_class.
Qed.

(** The longest run wins when the continuation accepts it. *)
Lemma greedy_accept k : forall xs pr s cs res,
  k (MState (lastp pr xs) s cs) = Some res -> greedy k pr xs s cs = Some res.
Proof.
  induction xs as [|x xs IH]; intros pr s cs res H; cbn [greedy].
  - exact H.
  - rewrite lastp_cons in H. now rewrite (IH _ _ _ _ H).
Qed.

(** Nothing shorter is tried with success by a continuation that refuses
    to start on a code unit of the run. *)
Lemma greedy_reject (p : N -> bool) k : forall xs pr s cs,
  Forall (fun c => p c = true) xs ->
  (forall pr c s cs, p c = true -> k (MState pr (c :: s) cs) = None) ->
  greedy k pr xs s cs = k (MState (lastp pr xs) s cs).
Proof.
  induction xs as [|x xs IH]; intros pr s cs Hxs Hk; cbn [greedy].
  - reflexivity.
  - inversion Hxs as [|? ? Hx Hxs']; subst.
    rewrite IH by assumption. rewrite lastp_cons.
    destruct (k (MState (lastp (Some x) xs) s cs)); [reflexivity|].
    now apply Hk.
Qed.

(** ** The marker pattern finds the marker of the specification *)

Lemma run_StrI k cs : forall w p s,
  run (StrI w) (MState p s cs) k
  = match strip_ci w s with
    | Some r => k (MState (lastp p (firstn (length w) s)) r cs)
    | None => None
    end.
Proof.
  induction w as [|b w IH]; intros p s; [reflexivity|].
  cbn [StrI strip_ci]. unfold ChrI at 1. cbn [run rest caps].
  destruct s as [|a s]; [reflexivity|].
  destruct ((a =? b)%N || (a =? upcase b)%N); [|reflexivity].
  rewrite IH. cbn [length firstn]. now rewrite lastp_cons.
Qed.

Lemma digit_not_space c : is_space c = true -> is_digit c = false.
Proof.
  unfold is_space, is_digit, in_range. intros H.
  destruct ((48 <=? c)%N && (c <=? 57)%N) eqn:E; [|reflexivity].
  apply andb_true_iff in E. destruct E as [E1 E2].
  apply N.leb_le in E1, E2.
  repeat (apply orb_true_iff in H; destruct H as [H|H]);
    try (apply andb_true_iff in H; destruct H as [H1 H2];
         apply N.leb_le in H1, H2; lia);
    apply N.eqb_eq in H; lia.
Qed.

Lemma run_digits pr s cs :
  run (Group 1 (Plus (Class is_digit))) (MState pr s cs) Some
  = match take_while is_digit s with
    | [] => None
    | d :: ds =>
        Some (MState (lastp pr (d :: ds)) (drop_while is_digit s)
                     ((1, d :: ds) :: cs))
    end.
Proof.
  change (run (Group 1 (Plus (Class is_digit))) (MState pr s cs) Some)
    with (run (Plus (Class is_digit)) (MState pr s cs)
            (fun st' => Some (MState (prev st') (rest st')
                                ((1, consumed s (rest st')) :: caps st')))).
  rewrite run_plus_class.
  destruct s as [|d s]; [reflexivity|].
  cbn [take_while drop_while].
  destruct (is_digit d) eqn:Hd; [|reflexivity].
  erewrite greedy_accept; [|reflexivity].
  cbn [rest prev caps]. rewrite lastp_cons.
  replace (consumed (d :: s) (drop_while is_digit s))
    with (d :: take_while is_digit s); [reflexivity|].
  rewrite <- (take_drop_while is_digit s) at 2.
  now rewrite app_comm_cons, consumed_app.
Qed.

Lemma match_here_marker w p s :
  option_map caps (match_here (marker_re w) p s)
  = option_map (fun ds => [(1, ds)]) (marker_here w s).
Proof.
  unfold match_here, marker_re, marker_here.
  change (run (Seq (StrI w) ?r) ?st ?k)
    with (run (StrI w) st (fun st' => run r st' k)).
  rewrite run_StrI.
  destruct (strip_ci w s) as [r|]; [|reflexivity].
  change (run (Seq ?a ?b) ?st ?k) with (run a st (fun st' => run b st' k)).
  rewrite run_plus_class.
  destruct r as [|c r]; [reflexivity|].
  destruct (is_space c) eqn:Hc; [|reflexivity].
  rewrite (@greedy_reject is_space).
  - rewrite run_digits.
    destruct (take_while is_digit (drop_while is_space r)); reflexivity.
  - apply take_while_all.
  - intros pr x s' cs Hx. rewrite run_digits. cbn [take_while].
    now rewrite (digit_not_space x Hx).
Qed.

Lemma search_marker w : forall s p,
  option_map groups_of (search_from (marker_re w) p s)
  = option_map (fun ds => [(1, ds)]) (first_marker w s).
Proof.
  induction s as [|c s IH]; intros p.
  - cbn [search_from first_marker].
    pose proof (match_here_marker w p []) as H.
    destruct (match_here (marker_re w) p []) as [st|],
             (marker_here w []) as [ds|]; cbn in *; congruence.
  - cbn [search_from first_marker].
    pose proof (match_here_marker w p (c :: s)) as H.
    destruct (match_here (marker_re w) p (c :: s)) as [st|],
             (marker_here w (c :: s)) as [ds|]; cbn in H; try congruence.
    + cbn. congruence.
    + rewrite <- (IH (Some c)).
      destruct (search_from (marker_re w) (Some c) s); reflexivity.
Qed.

(** The refinement: the digits the pattern captures are those of the
    leftmost marker. *)
Lemma exec_marker w message :
  option_map group1 (exec (marker_re w) message) = first_marker w message.
Proof.
  unfold exec. pose proof (search_marker w message None) as H.
  destruct (search_from (marker_re w) None message) as [f|],
           (first_marker w message) as [ds|]; cbn in *; try congruence.
  unfold group1. injection H as ->. reflexivity.
Qed.

Lemma exec_reported w message :
  option_map (fun f => decimal (group1 f)) (exec (marker_re w) message)
  = reported w message.
Proof.
  unfold reported. rewrite <- exec_marker.
  destruct (exec (marker_re w) message); reflexivity.
Qed.

(** Group 1 takes part in every match of a marker pattern, with at least
    one digit. *)
Lemma marker_group w message f :
  exec (marker_re w) message = Some f ->
  exists d ds, capture 1 (groups_of f) = Some (d :: ds)
               /\ Forall (fun c => is_digit c = true) (d :: ds).
Proof.
  intros E. unfold exec in E.
  pose proof (search_marker w message None) as H. rewrite E in H. cbn in H.
  destruct (first_marker w message) as [ds|] eqn:F; [|discriminate].
  injection H as H. rewrite H. cbn.
  assert (G : forall s, first_marker w s = Some ds ->
              ds <> [] /\ Forall (fun c => is_digit c = true) ds).
  { clear. induction s as [|c s IH]; cbn [first_marker]; intros H.
    - destruct (marker_here w []) eqn:M; [|discriminate]. injection H as ->.
      unfold marker_here in M. destruct (strip_ci w []) as [[|c r]|]; try discriminate.
      destruct (is_space c); [|discriminate].
      pose proof (take_while_all is_digit (drop_while is_space r)) as T.
      destruct (take_while is_digit (drop_while is_space r)); [discriminate|].
      injection M as <-. split; [discriminate | exact T].
    - destruct (marker_here w (c :: s)) eqn:M; [|auto]. injection H as ->.
      unfold marker_here in M.
      destruct (strip_ci w (c :: s)) as [[|c' r]|]; try discriminate.
      destruct (is_space c'); [|discriminate].
      pose proof (take_while_all is_digit (drop_while is_space r)) as T.
      destruct (take_while is_digit (drop_while is_space r)); [discriminate|].
      injection M as <-. split; [discriminate | exact T]. }
  destruct (G _ F) as [Hne Hd]. destruct ds as [|d ds]; [contradiction|].
  eauto.
Qed.

(** ** The marker of the specification, in words *)

Lemma strip_ci_some : forall w s r,
  strip_ci w s = Some r <-> exists x, s = x ++ r /\ ci_eq x w.
Proof.
  induction w as [|b w IH]; intros s r; cbn [strip_ci].
  - split.
    + intros E. injection E as ->. exists []. split; [reflexivity | constructor].
    + intros (x & -> & H). inversion H. reflexivity.
  - destruct s as [|a s].
    + split; [discriminate|]. intros (x & E & H). inversion H; subst. discriminate.
    + destruct ((a =? b)%N || (a =? upcase b)%N) eqn:E.
      * rewrite IH. split.
        -- intros (x & -> & H). exists (a :: x). split; [reflexivity|].
           constructor; [|exact H].
           apply orb_true_iff in E. destruct E as [E|E]; apply N.eqb_eq in E; auto.
        -- intros (x & Ex & H). inversion H as [|a' b' x' w' Hab Hx]; subst.
           injection Ex as <- ->. eauto.
      * split; [discriminate|].
        intros (x & Ex & H). inversion H as [|a' b' x' w' Hab Hx]; subst.
        injection Ex as <- ->.
        apply orb_false_iff in E. destruct E as [E1 E2].
        apply N.eqb_neq in E1, E2. tauto.
Qed.

Lemma space_not_digit d : is_digit d = true -> is_space d = false.
Proof.
  intros H. destruct (is_space d) eqn:E; [|reflexivity].
  apply digit_not_space in E. congruence.
Qed.

Lemma marker_here_some w s :
  marker_here w s <> None <->
  exists x ws d post,
    s = x ++ ws ++ d :: post
    /\ ci_eq x w /\ ws <> [] /\ spaces ws /\ is_digit d = true.
Proof.
  unfold marker_here. split.
  - destruct (strip_ci w s) as [[|c r]|] eqn:E; try (intros H; now destruct H).
    apply strip_ci_some in E. destruct E as (x & -> & Hx).
    destruct (is_space c) eqn:Hc; [|intros H; now destruct H].
    pose proof (take_drop_while is_space r) as Er.
    pose proof (take_while_all is_space r) as Hws.
    pose proof (take_drop_while is_digit (drop_while is_space r)) as Ed.
    pose proof (take_while_all is_digit (drop_while is_space r)) as Hd.
    destruct (take_while is_digit (drop_while is_space r)) as [|d ds];
      [intros H; now destruct H|]. intros _.
    exists x, (c :: take_while is_space r), d, (ds ++ drop_while is_digit (drop_while is_space r)).
    repeat split.
    + cbn [app]. rewrite <- app_comm_cons in Ed. rewrite Ed, Er. reflexivity.
    + exact Hx.
    + discriminate.
    + constructor; assumption.
    + now inversion Hd.
  - intros (x & ws & d & post & -> & Hx & Hne & Hws & Hd).
    destruct ws as [|c ws]; [contradiction|].
    inversion Hws as [|? ? Hc Hws']; subst.
    rewrite (proj2 (strip_ci_some w (x ++ (c :: ws) ++ d :: post)
                      ((c :: ws) ++ d :: post))) by eauto.
    cbn [app]. rewrite Hc.
    rewrite drop_while_app by (try assumption; now apply space_not_digit).
    cbn [take_while]. rewrite Hd. discriminate.
Qed.

(** A message has no marker for the scanner exactly when it holds none. *)
Lemma first_marker_none w : forall s,
  first_marker w s = None <-> ~ has_marker w s.
Proof.
  assert (Hcons : forall c s, has_marker w (c :: s) <->
                    marker_here w (c :: s) <> None \/ has_marker w s).
  { intros c s. split.
    - intros (pre & x & ws & d & post & E & H).
      destruct pre as [|c' pre].
      + left. apply marker_here_some. exists x, ws, d, post. auto.
      + right. injection E as _ ->. exists pre, x, ws, d, post. auto.
    - intros [H|(pre & x & ws & d & post & -> & H)].
      + apply marker_here_some in H. destruct H as (x & ws & d & post & E & H).
        exists [], x, ws, d, post. auto.
      + exists (c :: pre), x, ws, d, post. auto. }
  induction s as [|c s IH]; cbn [first_marker].
  - destruct (marker_here w []) eqn:E.
    + split; [discriminate|]. intros H. exfalso. apply H.
      assert (M : marker_here w [] <> None) by congruence.
      apply marker_here_some in M. destruct M as (x & ws & d & post & Ex & M).
      exists [], x, ws, d, post. auto.
    + split; [|reflexivity]. intros _ (pre & x & ws & d & post & Ex & M).
      destruct pre; [|discriminate].
      assert (M' : marker_here w [] <> None)
        by (apply marker_here_some; exists x, ws, d, post; auto).
      congruence.
  - rewrite Hcons. destruct (marker_here w (c :: s)) eqn:E.
    + split; [discriminate|]. intros H. exfalso. apply H. left. discriminate.
    + rewrite IH. tauto.
Qed.

(** ** The character walk *)

Lemma walk_spec position : forall chars line column currentPos,
  Part0.walk position chars line column currentPos
  = fold_left walk_step
      (firstn (N.to_nat (position - currentPos)) chars) (line, column).
Proof.
  induction chars as [|char chars IH]; intros line column currentPos.
  - now rewrite firstn_nil.
  - cbn [Part0.walk].
    destruct (N.leb_spec position currentPos) as [H|H].
    + replace (position - currentPos)%N with 0%N by lia. reflexivity.
    + replace (N.to_nat (position - currentPos))
        with (S (N.to_nat (position - (currentPos + 1)))) by lia.
      cbn [firstn fold_left]. unfold walk_step at 2. cbn [fst snd].
      destruct (is_newline char); apply IH.
Qed.

Lemma getErrorLocation_spec t message :
  Part0.getErrorLocation t message
  = option_map
      (fun p => location_after (firstn (N.to_nat p) (code_points t)))
      (reported (lit "position") message).
Proof.
  unfold Part0.getErrorLocation, position_re.
  rewrite <- exec_reported.
  destruct (exec (marker_re (lit "position")) message) as [f|]; [|reflexivity].
  cbn [option_map]. rewrite walk_spec, N.sub_0_r. reflexivity.
Qed.

Lemma walk_step_ge lc char :
  (1 <= fst lc)%N -> (1 <= snd lc)%N ->
  (1 <= fst (walk_step lc char))%N /\ (1 <= snd (walk_step lc char))%N.
Proof.
  unfold walk_step. destruct (is_newline char); cbn [fst snd]; lia.
Qed.

Lemma fold_walk_ge : forall chars lc,
  (1 <= fst lc)%N -> (1 <= snd lc)%N ->
  (1 <= fst (fold_left walk_step chars lc))%N
  /\ (1 <= snd (fold_left walk_step chars lc))%N.
Proof.
  induction chars as [|char chars IH]; intros lc H1 H2; cbn [fold_left].
  - auto.
  - destruct (walk_step_ge lc char H1 H2). now apply IH.
Qed.

Lemma fold_walk_one_line : forall chars line column,
  Forall (fun char => is_newline char = false) chars ->
  fold_left walk_step chars (line, column)
  = (line, (column + N.of_nat (length chars))%N).
Proof.
  induction chars as [|char chars IH]; intros line column H; cbn [fold_left length].
  - f_equal. lia.
  - inversion H as [|? ? Hc Hcs]; subst.
    unfold walk_step at 2. rewrite Hc. cbn [fst snd].
    rewrite IH by assumption. f_equal. lia.
Qed.

(** ** Code points and code units *)

Lemma Forall_prefix {A : Type} (P : A -> Prop) n (l : list A) :
  Forall P l -> Forall P (firstn n l).
Proof.
  intros H. rewrite <- (firstn_skipn n l) in H.
  apply Forall_app in H. tauto.
Qed.

Lemma code_points_pair c d s :
  code_points (c :: d :: s)
  = if is_high_surrogate c && is_low_surrogate d
    then [c; d] :: code_points s
    else [c] :: code_points (d :: s).
Proof. reflexivity. Qed.

Lemma code_points_concat : forall n s, length s <= n -> concat (code_points s) = s.
Proof.
  induction n as [|n IH]; intros s H.
  - destruct s; [reflexivity | cbn in H; lia].
  - destruct s as [|c [|d s]]; [reflexivity | reflexivity |].
    rewrite code_points_pair.
    destruct (is_high_surrogate c && is_low_surrogate d).
    + cbn [concat app]. rewrite IH; [reflexivity | cbn in H |- *; lia].
    + cbn [concat app]. rewrite IH; [reflexivity | cbn in H |- *; lia].
Qed.

Lemma code_points_nonempty : forall n s, length s <= n ->
  Forall (fun char => char <> []) (code_points s).
Proof.
  induction n as [|n IH]; intros s H.
  - destruct s; [constructor | cbn in H; lia].
  - destruct s as [|c [|d s]]; [constructor | repeat constructor; discriminate |].
    rewrite code_points_pair.
    destruct (is_high_surrogate c && is_low_surrogate d);
      (constructor; [discriminate | apply IH; cbn in H |- *; lia]).
Qed.

Lemma code_points_newline : forall n s, length s <= n ->
  Forall (fun char => is_newline char = false -> ~ In nl char) (code_points s).
Proof.
  induction n as [|n IH]; intros s H.
  - destruct s; [constructor | cbn in H; lia].
  - destruct s as [|c [|d s]]; [constructor | |].
    + constructor; [|constructor].
      intros E [Hc|[]]. rewrite Hc in E. cbv in E. discriminate E.
    + rewrite code_points_pair.
      destruct (is_high_surrogate c && is_low_surrogate d) eqn:E.
      * constructor; [|apply IH; cbn in H |- *; lia].
        apply andb_true_iff in E. destruct E as [E1 E2].
        intros _ [Hc|[Hc|[]]];
          [rewrite Hc in E1; cbv in E1; discriminate E1
          |rewrite Hc in E2; cbv in E2; discriminate E2].
      * constructor; [|apply IH; cbn in H |- *; lia].
        intros E' [Hc|[]]. rewrite Hc in E'. cbv in E'. discriminate E'.
Qed.

Lemma length_concat_ge (l : list jsstring) :
  Forall (fun char => char <> []) l -> length l <= length (concat l).
Proof.
  induction 1 as [|x l Hx _ IH]; [reflexivity|].
  cbn [concat length]. rewrite length_app.
  destruct x; [contradiction | cbn; lia].
Qed.

Lemma code_points_length s : length (code_points s) <= length s.
Proof.
  rewrite <- (code_points_concat (n:=length s) s) at 2 by reflexivity.
  apply length_concat_ge. apply (code_points_nonempty (n:=length s)). reflexivity.
Qed.

(** The first [n] code units lie within the first [n] code points. *)
Lemma firstn_units_in_points n s :
  exists r, concat (firstn n (code_points s)) = firstn n s ++ r.
Proof.
  pose proof (code_points_concat (n:=length s) s (le_n _)) as C.
  pose proof (code_points_nonempty (n:=length s) s (le_n _)) as NE.
  rewrite <- (firstn_skipn n (code_points s)) in C.
  rewrite concat_app in C.
  set (x := concat (firstn n (code_points s))) in *.
  set (y := concat (skipn n (code_points s))) in *.
  destruct (Nat.le_gt_cases n (length x)) as [L|L].
  - exists (skipn n x). rewrite <- C.
    rewrite firstn_app. replace (n - length x) with 0 by lia.
    rewrite firstn_O, app_nil_r. now rewrite firstn_skipn.
  - assert (length (firstn n (code_points s)) <= length x).
    { apply length_concat_ge. apply Forall_prefix. exact NE. }
    rewrite length_firstn in H.
    assert (Hn : length (code_points s) <= n) by lia.
    assert (y = []).
    { unfold y. rewrite skipn_all2 by exact Hn. reflexivity. }
    rewrite H0, app_nil_r in C. exists [].
    rewrite app_nil_r, <- C. symmetry. apply firstn_all2. lia.
Qed.

Lemma no_newline_units n s :
  Forall (fun char => is_newline char = false) (firstn n (code_points s)) ->
  ~ In nl (firstn n s).
Proof.
  intros H Hin. destruct (firstn_units_in_points n s) as (r & E).
  assert (In nl (concat (firstn n (code_points s))))
    by (rewrite E; apply in_or_app; now left).
  apply in_concat in H0. destruct H0 as (char & Hc & Hnl).
  pose proof (code_points_newline (n:=length s) s (le_n _)) as NL.
  apply (Forall_prefix n) in NL.
  rewrite Forall_forall in H, NL.
  exact (NL _ Hc (H _ Hc) Hnl).
Qed.

(** ** Splitting into lines *)

Lemma split_on_length sep s :
  length (split_on sep s) = S (count_occ N.eq_dec s sep).
Proof.
  induction s as [|c s IH]; [reflexivity|].
  cbn [split_on count_occ].
  destruct (N.eqb_spec c sep) as [->|Hc].
  - destruct (N.eq_dec sep sep); [|contradiction]. cbn [length]. now rewrite IH.
  - destruct (N.eq_dec c sep); [contradiction|].
    destruct (split_on sep s); cbn [length] in *; [discriminate | exact IH].
Qed.

Lemma getErrorLineNumber_spec message t :
  Page.getErrorLineNumber message t
  = match reported (lit "position") message with
    | Some p =>
        Some (Finite
                (N.of_nat (S (count_occ N.eq_dec (firstn (N.to_nat p) t) nl))))
    | None => option_map to_double (reported (lit "line") message)
    end.
Proof.
  unfold Page.getErrorLineNumber, position_re, line_re.
  rewrite <- !exec_reported.
  destruct (exec (marker_re (lit "position")) message) as [f|].
  - cbn [option_map]. unfold substring0. now rewrite split_on_length.
  - cbn [option_map]. destruct (exec (marker_re (lit "line")) message); reflexivity.
Qed.

(** ** Entities stay whole in the output *)

Lemma scan_skip re : forall s p k,
  k <= length s ->
  scan re p k s = scan re (lastp p (firstn k s)) 0 (skipn k s).
Proof.
  induction s as [|c s IH]; intros p k Hk.
  - destruct k; [reflexivity | cbn in Hk; lia].
  - destruct k as [|k]; [reflexivity|].
    cbn [scan firstn skipn]. rewrite lastp_cons. apply IH. cbn in Hk. lia.
Qed.

(** A scan, match by match. *)
Lemma scan_jump re p s :
  scan re p 0 s
  = match match_here re p s with
    | Some st =>
        Hit (consumed s (rest st)) (caps st) ::
        match consumed s (rest st), s with
        | [], c :: s' => Lit c :: scan re (Some c) 0 s'
        | _ :: _, _ :: _ => scan re (lastp p (consumed s (rest st))) 0 (rest st)
        | _, [] => []
        end
    | None =>
        match s with
        | [] => []
        | c :: s' => Lit c :: scan re (Some c) 0 s'
        end
    end.
Proof.
  destruct s as [|c s]; cbn [scan].
  - destruct (match_here re p []) as [st|]; [|reflexivity].
    destruct (consumed [] (rest st)); reflexivity.
  - destruct (match_here re p (c :: s)) as [st|] eqn:E; [|reflexivity].
    f_equal. apply match_here_sound in E. destruct E as [E _].
    set (m := consumed (c :: s) (rest st)) in *.
    assert (L : length (c :: s) - length (rest st) = length m).
    { rewrite E at 1. rewrite length_app. lia. }
    rewrite L. destruct m as [|a m]; [reflexivity|].
    cbn [length]. injection E as <- E.
    rewrite scan_skip by (rewrite E, length_app; lia).
    rewrite E. rewrite firstn_app, Nat.sub_diag, firstn_all, firstn_O, app_nil_r.
    rewrite skipn_app, Nat.sub_diag, skipn_all, skipn_O. cbn [app].
    now rewrite lastp_cons.
Qed.

Lemma numeric_first m :
  numeric_literal m ->
  exists a m', m = a :: m' /\ (a = 45%N \/ is_digit a = true).
Proof.
  intros [sg int fr ex Hs Hne Hi _ _].
  destruct Hs as [->| ->].
  - destruct int as [|a int]; [contradiction|].
    inversion Hi; subst. cbn [app]. eauto.
  - cbn [app]. eauto.
Qed.

Lemma starts_with_app w r : starts_with w (w ++ r) = true.
Proof.
  induction w as [|a w IH]; [reflexivity|].
  cbn [app starts_with]. now rewrite N.eqb_refl, IH.
Qed.

Lemma tok_may_start c m r : tok_shape c m -> may_start (m ++ r) = true.
Proof.
  intros [body|body ws _| | | |m' Hm].
  - reflexivity.
  - reflexivity.
  - reflexivity.
  - reflexivity.
  - reflexivity.
  - destruct (numeric_first Hm) as (a & m'' & -> & [->|Ha]).
    + reflexivity.
    + cbn [app may_start]. rewrite Ha. now rewrite !orb_true_r.
Qed.

Lemma match_may_start h p text st :
  match_here (token_re h) p text = Some st -> may_start text = true.
Proof.
  intros E. apply match_here_sound in E. destruct E as [E S].
  apply token_shape in S. destruct S as (c & S).
  rewrite E. eapply tok_may_start; eauto.
Qed.

Lemma no_match h p text :
  may_start text = false -> match_here (token_re h) p text = None.
Proof.
  intros H. destruct (match_here (token_re h) p text) eqn:E; [|reflexivity].
  apply match_may_start in E. congruence.
Qed.

Lemma scan_lit h p c s :
  may_start (c :: s) = false ->
  scan (token_re h) p 0 (c :: s) = Lit c :: scan (token_re h) (Some c) 0 s.
Proof.
  intros H. cbn [scan]. now rewrite (no_match h p _ H).
Qed.

(** The name of an entity is copied code unit by code unit. *)
Lemma scan_name h f name s p :
  name = lit "amp;" \/ name = lit "lt;" \/ name = lit "gt;" ->
  flat_map (render f) (scan (token_re h) p 0 (name ++ s))
  = name ++ flat_map (render f) (scan (token_re h) (Some 59%N) 0 s).
Proof.
  intros [->|[->| ->]]; cbn [lit list_ascii_of_string map app];
    repeat (rewrite scan_lit by reflexivity; cbn [flat_map render app]);
    reflexivity.
Qed.

Lemma entities_plain t x :
  forallb (fun c => negb (c =? amp)%N) t = true ->
  entities_ok (t ++ x) = entities_ok x.
Proof.
  induction t as [|c t IH]; [reflexivity|].
  cbn [forallb app entities_ok]. intros H.
  apply andb_true_iff in H. destruct H as [Hc Ht].
  rewrite Hc, IH by exact Ht. reflexivity.
Qed.

Lemma entities_suffix x y : entities_ok (x ++ y) = true -> entities_ok y = true.
Proof.
  induction x as [|c x IH]; [auto|].
  cbn [app entities_ok]. intros H. apply andb_true_iff in H. tauto.
Qed.

Lemma starts_with_tail w : forall u c r c' z,
  forallb is_entity_char w = true -> is_entity_char c = false ->
  starts_with w (u ++ c :: r) = true -> starts_with w (u ++ c' :: z) = true.
Proof.
  induction w as [|a w IH]; intros u c r c' z Hw Hc H; [reflexivity|].
  cbn [forallb] in Hw. apply andb_true_iff in Hw. destruct Hw as [Ha Hw].
  destruct u as [|y u]; cbn [app starts_with] in *.
  - apply andb_true_iff in H. destruct H as [H _].
    apply N.eqb_eq in H. subst. congruence.
  - apply andb_true_iff in H. destruct H as [H1 H2].
    rewrite H1. cbn [andb]. eapply IH; eauto.
Qed.

(** What follows a text that ends before a code unit foreign to the
    entities can be exchanged. *)
Lemma entities_tail : forall u c r c' z,
  is_entity_char c = false ->
  entities_ok (u ++ c :: r) = true ->
  entities_ok (c' :: z) = true ->
  entities_ok (u ++ c' :: z) = true.
Proof.
  induction u as [|y u IH]; intros c r c' z Hc H Hz; [exact Hz|].
  cbn [app entities_ok] in *.
  apply andb_true_iff in H. destruct H as [H1 H2].
  rewrite (IH c r c' z Hc H2 Hz), andb_true_r.
  destruct (y =? amp)%N; [|reflexivity]. cbn [negb orb] in *.
  repeat (apply orb_true_iff in H1; destruct H1 as [H1|H1]).
  - rewrite (starts_with_tail (lit "amp;") u c r c' z); auto.
  - rewrite (starts_with_tail (lit "lt;") u c r c' z); auto.
    now rewrite orb_true_r.
  - rewrite (starts_with_tail (lit "gt;") u c r c' z); auto.
    now rewrite !orb_true_r.
Qed.

Lemma numchar_plain m :
  Forall (fun c => is_numchar c = true) m ->
  forallb (fun c => negb (c =? amp)%N) m = true.
Proof.
  intros H. apply forallb_forall. intros c Hc.
  rewrite Forall_forall in H. apply H in Hc.
  destruct (N.eqb_spec c amp) as [->|]; [discriminate | reflexivity].
Qed.

Lemma wrapped_keeps_entities o cl c m r z :
  forallb (fun c => negb (c =? amp)%N) o = true ->
  forallb (fun c => negb (c =? amp)%N) cl = true ->
  tok_shape c m ->
  entities_ok (m ++ r) = true -> entities_ok z = true ->
  entities_ok ((o ++ m ++ cl) ++ z) = true.
Proof.
  intros Ho Hcl S Hm Hz.
  rewrite <- !app_assoc, (entities_plain _ _ Ho).
  assert (Z : entities_ok (cl ++ z) = true) by now rewrite (entities_plain _ _ Hcl).
  destruct S as [body|body ws _| | | |m Hn].
  - change (dq :: body ++ [dq]) with ((dq :: body) ++ [dq]) in *.
    rewrite <- app_assoc in *. cbn [app] in Hm |- *.
    apply (@entities_tail (dq :: body) dq r dq (cl ++ z)); auto.
  - replace (dq :: body ++ [dq] ++ ws ++ [colon])
      with ((dq :: body ++ [dq] ++ ws) ++ [colon]) in *
      by (cbn [app]; now rewrite <- !app_assoc).
    rewrite <- app_assoc in *. cbn [app] in Hm |- *.
    apply (@entities_tail (dq :: body ++ dq :: ws) colon r colon (cl ++ z)); auto.
  - now rewrite entities_plain.
  - now rewrite entities_plain.
  - now rewrite entities_plain.
  - rewrite entities_plain; [exact Z|].
    apply numchar_plain, numeric_chars, Hn.
Qed.

Lemma span_open_plain0 c :
  forallb (fun c => negb (c =? amp)%N) (Part0.span_open c) = true.
Proof. destruct c; reflexivity. Qed.

Lemma span_open_plain c :
  forallb (fun c => negb (c =? amp)%N) (Page.span_open c) = true.
Proof. destruct c; reflexivity. Qed.

Lemma Part0_keeps_entities : keeps_entities Part0.replacer.
Proof.
  intros c m cs r z S Hm Hz. unfold Part0.replacer.
  eapply wrapped_keeps_entities; eauto. apply span_open_plain0.
Qed.

Lemma Page_keeps_entities : keeps_entities Page.replacer.
Proof.
  intros c m cs r z S Hm Hz.
  destruct (classify m) eqn:E.
  1:{ destruct (Page_replacer_key m cs E) as (b & -> & ->).
      rewrite <- !app_assoc, (entities_plain _ _ (span_open_plain TKey)).
      rewrite <- app_assoc in Hm. cbn [app] in Hm |- *.
      apply (@entities_tail b colon r dq (colon :: span_close ++ z));
        [reflexivity | exact Hm|].
      change (dq :: colon :: span_close ++ z)
        with (([dq; colon] ++ span_close) ++ z).
      now rewrite entities_plain. }
  all: rewrite Page_replacer_other by congruence;
    eapply wrapped_keeps_entities; eauto; apply span_open_plain.
Qed.

Lemma entities_amp s :
  entities_ok (amp :: s) = true ->
  exists name r, s = name ++ r
    /\ (name = lit "amp;" \/ name = lit "lt;" \/ name = lit "gt;").
Proof.
  assert (P : forall w, starts_with w s = true -> exists r, s = w ++ r).
  { intros w. revert s. induction w as [|a w IH]; intros s H.
    - exists s. reflexivity.
    - destruct s as [|b s]; [discriminate|]. cbn [starts_with] in H.
      apply andb_true_iff in H. destruct H as [H1 H2].
      apply N.eqb_eq in H1. subst b.
      destruct (IH _ H2) as (r & ->). exists r. reflexivity. }
  cbn [entities_ok]. rewrite N.eqb_refl. cbn [negb orb]. intros H.
  apply andb_true_iff in H. destruct H as [H _].
  repeat (apply orb_true_iff in H; destruct H as [H|H]);
    apply P in H; destruct H as (r & ->); eauto 6.
Qed.

Lemma scan_keeps_entities h f :
  keeps_entities f ->
  forall n s p, length s <= n -> entities_ok s = true ->
    entities_ok (flat_map (render f) (scan (token_re h) p 0 s)) = true.
Proof.
  intros Hf. induction n as [|n IH]; intros s p Hn Hs.
  - destruct s; [|cbn in Hn; lia].
    cbn [scan]. now rewrite no_match.
  - rewrite scan_jump.
    destruct (match_here (token_re h) p s) as [st|] eqn:E.
    + apply match_here_sound in E. destruct E as [E S].
      apply token_shape in S. destruct S as (c & S).
      remember (consumed s (rest st)) as m eqn:Em0.
      destruct m as [|a m].
      { pose proof (tok_may_start [] S) as T. discriminate T. }
      destruct s as [|c0 s]; [discriminate|].
      cbn [flat_map render].
      rewrite E in Hs. apply (Hf c (a :: m) _ (rest st)); [exact S | exact Hs|].
      apply IH; [|eapply entities_suffix; eauto].
      assert (length (c0 :: s) = length (a :: m) + length (rest st))
        by (rewrite E at 1; apply length_app).
      cbn [length] in *. lia.
    + destruct s as [|c s]; [reflexivity|].
      cbn [flat_map render app].
      destruct (N.eqb_spec c amp) as [->|Hc].
      * destruct (entities_amp _ Hs) as (name & r & -> & Hname).
        rewrite (scan_name h f r (Some amp) Hname).
        cbn [entities_ok]. rewrite N.eqb_refl. cbn [negb orb].
        assert (T : entities_ok
                      (name ++ flat_map (render f)
                                 (scan (token_re h) (Some 59%N) 0 r)) = true).
        { rewrite entities_plain.
          - apply IH.
            + cbn [length] in Hn. rewrite length_app in Hn. lia.
            + cbn [entities_ok] in Hs. apply andb_true_iff in Hs.
              destruct Hs as [_ Hs]. eapply entities_suffix; eauto.
          - destruct Hname as [->|[->| ->]]; reflexivity. }
        rewrite T, andb_true_r.
        destruct Hname as [->|[->| ->]]; rewrite starts_with_app;
          now rewrite ?orb_true_r.
      * cbn [entities_ok]. apply N.eqb_neq in Hc. rewrite Hc. cbn [negb orb andb].
        apply IH; [cbn in Hn; lia|].
        cbn [entities_ok] in Hs. apply andb_true_iff in Hs. tauto.
Qed.

Lemma Part0_entities s : entities_ok (Part0.syntaxHighlight s) = true.
Proof.
  unfold Part0.syntaxHighlight, replace_all.
  apply (scan_keeps_entities is_hex Part0_keeps_entities (n:=length (escape s)));
    [reflexivity | apply escape_entities].
Qed.

Lemma wrap_keeps_entities p c :
  (forall x, is_entity_char x = true -> p x = false) ->
  forall s, entities_ok s = true ->
    entities_ok (flat_map (wrap_where p c) s) = true.
Proof.
  intros Hp.
  assert (P : forall w s, forallb is_entity_char w = true ->
                starts_with w s = true ->
                starts_with w (flat_map (wrap_where p c) s) = true).
  { induction w as [|a w IH]; intros s Hw H; [reflexivity|].
    cbn [forallb] in Hw. apply andb_true_iff in Hw. destruct Hw as [Ha Hw].
    destruct s as [|b s]; [discriminate|]. cbn [starts_with] in H.
    apply andb_true_iff in H. destruct H as [H1 H2].
    apply N.eqb_eq in H1. subst b.
    cbn [flat_map]. unfold wrap_where at 1. rewrite (Hp a Ha).
    cbn [app starts_with]. rewrite N.eqb_refl. cbn [andb]. now apply IH. }
  induction s as [|x s IH]; intros H; [reflexivity|].
  cbn [entities_ok] in H. apply andb_true_iff in H. destruct H as [H1 H2].
  cbn [flat_map]. unfold wrap_where at 1. destruct (p x) eqn:Ex.
  - rewrite <- !app_assoc, (entities_plain _ _ (span_open_plain c)).
    cbn [app entities_ok].
    destruct (N.eqb_spec x amp) as [->|_].
    + rewrite (Hp amp eq_refl) in Ex. discriminate.
    + cbn [negb orb andb]. rewrite entities_plain by reflexivity. now apply IH.
  - cbn [app entities_ok]. rewrite (IH H2), andb_true_r.
    destruct (x =? amp)%N; [|reflexivity]. cbn [negb orb] in *.
    repeat (apply orb_true_iff in H1; destruct H1 as [H1|H1]).
    + rewrite (P (lit "amp;")); auto.
    + rewrite (P (lit "lt;")); auto. now rewrite orb_true_r.
    + rewrite (P (lit "gt;")); auto. now rewrite !orb_true_r.
Qed.

Lemma entity_char_plain x :
  is_entity_char x = true -> Page.is_brace x = false /\ Page.is_bracket x = false.
Proof.
  unfold is_entity_char. cbn [lit list_ascii_of_string map existsb].
  intros H.
  repeat (apply orb_true_iff in H; destruct H as [H|H]);
    try discriminate; apply N.eqb_eq in H; subst; split; reflexivity.
Qed.

Lemma Page_entities s : entities_ok (Page.syntaxHighlight s) = true.
Proof.
  rewrite Page_passes.
  apply wrap_keeps_entities; [intros x Hx; now apply entity_char_plain|].
  apply wrap_keeps_entities; [intros x Hx; now apply entity_char_plain|].
  unfold Page.token_pass, replace_all.
  apply (scan_keeps_entities is_alnum Page_keeps_entities (n:=length (escape s)));
    [reflexivity | apply escape_entities].
Qed.

(** ** A string before a colon is matched with it *)

(** Where a match of a scan was found. *)
Lemma scan_hit_here re : forall s p k m cs,
  In (Hit m cs) (scan re p k s) ->
  exists p' pre st,
    match_here re p' (m ++ rest st) = Some st
    /\ s = pre ++ m ++ rest st /\ cs = caps st.
Proof.
  assert (Hhere : forall p s st,
            match_here re p s = Some st ->
            match_here re p (consumed s (rest st) ++ rest st) = Some st
            /\ s = [] ++ consumed s (rest st) ++ rest st).
  { intros p s st E. pose proof (match_here_sound _ _ _ E) as [E' _].
    cbn [app]. rewrite <- E'. auto. }
  induction s as [|c s IH]; intros p k m cs H.
  - destruct k; cbn [scan] in H; [|contradiction].
    destruct (match_here re p []) as [st|] eqn:E; [|contradiction].
    destruct H as [H|[]]. injection H as <- <-.
    destruct (Hhere _ _ _ E). exists p, [], st. auto.
  - assert (Htail : forall p' k',
              In (Hit m cs) (scan re p' k' s) ->
              exists p'' pre st,
                match_here re p'' (m ++ rest st) = Some st
                /\ c :: s = pre ++ m ++ rest st /\ cs = caps st).
    { intros p' k' H'. destruct (IH _ _ _ _ H') as (p'' & pre & st & E1 & E2 & E3).
      exists p'', (c :: pre), st. cbn [app]. rewrite <- E2. auto. }
    destruct k as [|k]; [|cbn [scan] in H; eauto].
    cbn [scan] in H.
    destruct (match_here re p (c :: s)) as [st|] eqn:E.
    + destruct H as [H|H].
      * injection H as <- <-. destruct (Hhere _ _ _ E). exists p, [], st. auto.
      * destruct (length (c :: s) - length (rest st)).
        -- destruct H as [H|H]; [discriminate | eauto].
        -- eauto.
    + destruct H as [H|H]; [discriminate | eauto].
Qed.

Lemma run_colon_group pr q cs k :
  colon_next q = true ->
  (forall st, k st <> None) ->
  run (Group 3 (Seq (Star (Class is_space)) (Chr colon))) (MState pr q cs)
      (fun st' => if length (rest st') <? length q then k st' else None)
  <> None.
Proof.
  intros Hq Hk.
  change (run (Group 3 (Seq (Star (Class is_space)) (Chr colon)))
            (MState pr q cs) ?k0)
    with (run (Star (Class is_space)) (MState pr q cs)
            (fun st1 => run (Chr colon) st1
               (fun st' => k0 (MState (prev st') (rest st')
                                 ((3, consumed q (rest st')) :: caps st'))))).
  rewrite run_star_class.
  unfold colon_next in Hq.
  pose proof (take_drop_while is_space q) as Eq.
  destruct (drop_while is_space q) as [|c q'] eqn:D; [discriminate|].
  apply N.eqb_eq in Hq. subst c.
  match goal with
  | |- greedy ?kk ?p ?xs ?s ?c <> None =>
      pose proof (@greedy_accept kk xs p s c) as GA;
      destruct (kk (MState (lastp p xs) s c)) as [res|] eqn:K
  end.
  - rewrite (GA res eq_refl). discriminate.
  - exfalso. unfold Chr in K. cbn [run rest caps prev] in K.
    rewrite N.eqb_refl in K. cbn [rest] in K.
    assert (L : length q' < length q).
    { rewrite <- Eq, length_app. cbn [length]. lia. }
    apply Nat.ltb_lt in L. rewrite L in K. now apply Hk in K.
Qed.

Lemma string_shape_last m : tok_shape TString m -> exists u, m = u ++ [dq].
Proof.
  intros S. remember TString as c eqn:Ec.
  destruct S; try discriminate. exists (dq :: body). reflexivity.
Qed.

(** When the text goes on with a colon, the match of a string takes it. *)
Lemma string_takes_colon h p text st :
  match_here (token_re h) p text = Some st ->
  tok_shape TString (consumed text (rest st)) ->
  colon_next (rest st) = false.
Proof.
  intros E S.
  pose proof (match_here_sound _ _ _ E) as [Et _].
  remember (consumed text (rest st)) as m eqn:Em. clear Em.
  unfold match_here in E.
  change (run (token_re h) ?s0 Some)
    with (run (Alt (string_re h) (Alt keyword_re number_re)) s0
            (fun st' => Some (MState (prev st') (rest st')
                                ((1, consumed (rest s0) (rest st')) :: caps st'))))
    in E.
  set (k1 := fun st' : mstate => Some _) in E.
  change (run (Alt (string_re h) (Alt keyword_re number_re)) ?s0 k1)
    with (match run (string_re h) s0 k1 with
          | Some r => Some r
          | None => run (Alt keyword_re number_re) s0 k1
          end) in E.
  destruct (run (string_re h) (MState p text []) k1) as [r|] eqn:R.
  - injection E as ->.
    unfold string_re in R.
    change (run (Seq ?a ?b) ?s0 ?k) with (run a s0 (fun s1 => run b s1 k)) in R.
    apply run_sound in R. destruct R as (s1 & (xa & Ea & _) & R).
    change (run (Seq ?a ?b) ?s0 ?k) with (run a s0 (fun s1 => run b s1 k)) in R.
    apply run_sound in R. destruct R as (s2 & (xb & Eb & _) & R).
    change (run (Seq ?a ?b) ?s0 ?k) with (run a s0 (fun s1 => run b s1 k)) in R.
    apply run_sound in R. destruct R as (s3 & (xc & Ec & _) & R).
    change (run (Opt ?a) ?s0 ?k)
      with (match run a s0 (fun st' => if length (rest st') <? length (rest s0)
                                       then k st' else None) with
            | Some r => Some r
            | None => k s0
            end) in R.
    match type of R with
    | match ?X with _ => _ end = _ => destruct X as [r|] eqn:G
    end.
    + exfalso. injection R as ->.
      apply run_sound in G. destruct G as (s4 & (x & Ex & _ & Sx) & G).
      destruct (length (rest s4) <? length (rest s3)); [|discriminate].
      unfold k1 in G. injection G as <-. cbn [rest] in *.
      destruct Sx as (x1 & x2 & -> & _ & Hc). apply spans_Chr in Hc. subst x2.
      rewrite Ea, Eb, Ec, Ex in Et.
      assert (Em : m = (xa ++ xb ++ xc ++ x1) ++ [colon]).
      { apply (app_inv_tail (rest s4)). rewrite <- Et.
        now rewrite <- !app_assoc. }
      destruct (string_shape_last S) as (u & Hb). rewrite Em in Hb.
      apply app_inj_tail in Hb. destruct Hb as [_ Hb]. discriminate Hb.
    + unfold k1 in R. injection R as <-. cbn [rest] in *.
      destruct (colon_next (rest s3)) eqn:C; [|reflexivity].
      exfalso. destruct s3 as [pr q cs]. cbn [rest] in *.
      revert G. apply run_colon_group; [exact C|].
      intros st'. unfold k1. discriminate.
  - exfalso. apply run_sound in E. destruct E as (s1 & (x & Ex & _ & Sx) & E).
    unfold k1 in E. injection E as <-. cbn [rest] in *.
    assert (Em : m = x).
    { apply (app_inv_tail (rest s1)). now rewrite <- Et. }
    subst x.
    assert (T : exists c, c <> TString /\ tok_shape c m).
    { destruct Sx as [Sx|Sx].
      - apply spans_keyword in Sx. destruct Sx as [->|[->| ->]].
        + exists TBoolean. split; [discriminate | constructor].
        + exists TBoolean. split; [discriminate | constructor].
        + exists TNull. split; [discriminate | constructor].
      - apply spans_number in Sx. exists TNumber.
        split; [discriminate | now constructor]. }
    destruct T as (c & Hc & T). apply Hc. eapply tok_shape_unique; eauto.
Qed.

(** A token of class [TString] found by the scan is not followed, in the
    text, by optional white space and a colon. *)
Lemma string_token_context h s m cs :
  In (Hit m cs) (scan (token_re h) None 0 s) ->
  tok_shape TString m ->
  exists pre q, s = pre ++ m ++ q /\ colon_next q = false.
Proof.
  intros H S. apply scan_hit_here in H.
  destruct H as (p' & pre & st & E & Es & _).
  exists pre, (rest st). split; [exact Es|].
  apply (string_takes_colon h p' (m ++ rest st)); [exact E|].
  now rewrite consumed_app.
Qed.

(** ** The handlers *)

Lemma trim_blank s : blank s = true -> trim s = [].
Proof.
  intros H. unfold trim, trim_start.
  assert (E : drop_while is_space s = []).
  { induction s as [|c s IH]; [reflexivity|].
    cbn [blank forallb] in H. apply andb_true_iff in H. destruct H as [Hc Hs].
    cbn [drop_while]. rewrite Hc. now apply IH. }
  rewrite E. reflexivity.
Qed.

(** ** Claims *)

(** C1 (the variant of [page.tsx] fails it).  On the serialized object
    with the one key [name], the key token is emitted with a second quote
    before its colon, where the variant of [part_000] emits the matched
    text as it is. *)
Theorem page_key_token_altered :
  Page.syntaxHighlight name_doc
  = Page.span_open TBrace ++ [123%N] ++ span_close
    ++ Page.span_open TKey ++ ([dq] ++ lit "name" ++ [dq; dq; colon])
    ++ span_close
    ++ Page.span_open TNumber ++ lit "1" ++ span_close
    ++ Page.span_open TBrace ++ [125%N] ++ span_close
  /\ Part0.syntaxHighlight name_doc
     = [123%N] ++ Part0.span_open TKey ++ key_name ++ span_close
       ++ Part0.span_open TNumber ++ lit "1" ++ span_close ++ [125%N].
Proof. split; vm_compute; reflexivity. Qed.

(** In the variant of [part_000] every token is wrapped unchanged: the
    output is the escaped text with each match between its tags. *)
Lemma Part0_tokens_unchanged s :
  Part0.syntaxHighlight s
  = flat_map (fun it => match it with
                        | Lit c => [c]
                        | Hit m _ =>
                            Part0.span_open (classify m) ++ m ++ span_close
                        end)
      (scan (token_re is_hex) None 0 (escape s))
  /\ flat_map raw (scan (token_re is_hex) None 0 (escape s)) = escape s.
Proof.
  split; [|apply scan_raw].
  unfold Part0.syntaxHighlight, replace_all. apply flat_map_ext.
  intros [c|m cs]; reflexivity.
Qed.

(** A walk over characters none of which is a newline stays on its
    line. *)
Lemma no_newline_Forall chars :
  no_newline chars = true ->
  Forall (fun char => is_newline char = false) chars.
Proof.
  intros H. apply Forall_forall. intros char Hin.
  unfold no_newline in H. rewrite forallb_forall in H.
  apply H in Hin. now apply negb_true_iff in Hin.
Qed.

(** C2, amended.  When the message reports the offset [p] and none of the
    first [p] characters of [t] is a newline, [getErrorLocation] returns
    line 1 and column [min p n + 1], [n] being the number of characters of
    [t], and [getErrorLineNumber] returns 1. *)
Theorem single_line_location t message p :
  reported (lit "position") message = Some p ->
  no_newline (firstn (N.to_nat p) (code_points t)) = true ->
  Part0.getErrorLocation t message
  = Some (1%N, (N.min p (N.of_nat (length (code_points t))) + 1)%N)
  /\ Page.getErrorLineNumber message t = Some (Finite 1).
Proof.
  intros Hp Hnl. apply no_newline_Forall in Hnl. split.
  - rewrite getErrorLocation_spec, Hp. cbn [option_map].
    unfold location_after. rewrite fold_walk_one_line by exact Hnl.
    rewrite length_firstn. do 2 f_equal. lia.
  - rewrite getErrorLineNumber_spec, Hp.
    rewrite (proj1 (count_occ_not_In N.eq_dec _ _)); [reflexivity|].
    now apply no_newline_units.
Qed.

Lemma single_line_location_witness :
  reported (lit "position") (lit "Unexpected token at position 2") = Some 2%N
  /\ no_newline (firstn (N.to_nat 2) (code_points (lit "abc"))) = true
  /\ Part0.getErrorLocation (lit "abc") (lit "Unexpected token at position 2")
     = Some (1%N, (N.min 2 (N.of_nat (length (code_points (lit "abc")))) + 1)%N)
  /\ Page.getErrorLineNumber (lit "Unexpected token at position 2") (lit "abc")
     = Some (Finite 1).
Proof.
  split; [vm_compute; reflexivity|]. split; [vm_compute; reflexivity|].
  apply (@single_line_location (lit "abc")
           (lit "Unexpected token at position 2") 2%N); vm_compute; reflexivity.
Defined.

(** The column is [p + 1] when the offset lies within the text. *)
Lemma single_line_column t message p :
  reported (lit "position") message = Some p ->
  (p <= N.of_nat (length (code_points t)))%N ->
  no_newline (firstn (N.to_nat p) (code_points t)) = true ->
  Part0.getErrorLocation t message = Some (1%N, (p + 1)%N).
Proof.
  intros Hp Hle Hnl. apply no_newline_Forall in Hnl.
  rewrite getErrorLocation_spec, Hp. cbn [option_map].
  unfold location_after. rewrite fold_walk_one_line by exact Hnl.
  rewrite length_firstn. do 2 f_equal. lia.
Qed.

(** C2 as stated fails when the offset passes the number of characters:
    on a string of three characters outside the basic plane followed by a
    bracket (nine code units, six characters), the offset 8 of the bracket
    gives column 7. *)
Lemma single_line_counterexample :
  ~ (forall t message p,
       reported (lit "position") message = Some p ->
       no_newline (firstn (N.to_nat p) (code_points t)) = true ->
       Part0.getErrorLocation t message = Some (1%N, (p + 1)%N)).
Proof.
  intros H.
  set (t := [dq; 55357; 56832; 55357; 56832; 55357; 56832; dq; 93]%N).
  set (message :=
         lit "Unexpected non-whitespace character after JSON at position 8").
  assert (E : reported (lit "position") message = Some 8%N)
    by (vm_compute; reflexivity).
  assert (F : no_newline (firstn (N.to_nat 8) (code_points t)) = true)
    by (vm_compute; reflexivity).
  specialize (H t message 8%N E F).
  vm_compute in H. discriminate H.
Qed.

(** The tags of a class of tokens, as both variants build them. *)
Lemma token_tags c m :
  tok_shape c m ->
  exists name colour,
    token_markup c name colour
    /\ Part0.span_open c = class_span name
    /\ Page.span_open c = colour_span colour.
Proof.
  intros H.
  destruct c; try (exfalso; inversion H; fail);
    do 2 eexists; (split; [constructor|]); split; vm_compute; reflexivity.
Qed.

(** C3.  Every match of the token pattern (with either set of hexadecimal
    digits) has the shape of one class, a quoted text followed by white
    space and a colon for [TKey], a quoted text for [TString], [true] or
    [false] for [TBoolean], [null] for [TNull], a numeric literal for
    [TNumber]; a match of class [TString] is not followed by a colon in
    the text; and the callbacks of both variants put the match in the
    span of its class: one with the class name [json-key], [json-string],
    [json-number], [json-boolean] or [json-null] in the variant of
    [part_000], one with the colour of the class in that of [page.tsx]
    (where the text of a key is rewritten first). *)
Theorem token_classified h s m cs :
  In (Hit m cs) (scan (token_re h) None 0 s) ->
  exists c pre q name colour,
    s = pre ++ m ++ q
    /\ tok_shape c m /\ classify m = c
    /\ (c = TString -> colon_next q = false)
    /\ token_markup c name colour
    /\ Part0.replacer m cs = class_span name ++ m ++ lit "</span>"
    /\ exists m',
         Page.replacer m cs = colour_span colour ++ m' ++ lit "</span>"
         /\ (c <> TKey -> m' = m).
Proof.
  intros H. destruct (token_classification h s m cs H) as (c & Hs & Hc).
  destruct (scan_hit_here _ _ _ _ _ _ H) as (p' & pre & st & E & Es & _).
  destruct (token_tags Hs) as (name & colour & Hm & E0 & E1).
  exists c, pre, (rest st), name, colour. repeat split; try assumption.
  - intros ->. apply (string_takes_colon h p' (m ++ rest st)); [exact E|].
    now rewrite consumed_app.
  - unfold Part0.replacer. rewrite Hc, E0. reflexivity.
  - unfold Page.replacer. rewrite Hc, E1. eexists. split; [reflexivity|].
    intros Hk. destruct c; try reflexivity. contradiction.
Qed.

Lemma token_classified_witness :
  In (Hit key_name [(1, key_name); (3, [colon]); (2, [101%N])])
     (scan (token_re is_hex) None 0 name_doc)
  /\ exists c pre q name colour,
       name_doc = pre ++ key_name ++ q
       /\ tok_shape c key_name /\ classify key_name = c
       /\ (c = TString -> colon_next q = false)
       /\ token_markup c name colour
       /\ Part0.replacer key_name [(1, key_name); (3, [colon]); (2, [101%N])]
          = class_span name ++ key_name ++ lit "</span>"
       /\ exists m',
            Page.replacer key_name [(1, key_name); (3, [colon]); (2, [101%N])]
            = colour_span colour ++ m' ++ lit "</span>"
            /\ (c <> TKey -> m' = key_name).
Proof.
  split; [vm_compute; right; left; reflexivity|].
  apply (@token_classified is_hex name_doc). vm_compute. right. left. reflexivity.
Defined.

(** C4.  The three escaping passes amount to one substitution per code
    unit (nothing is encoded twice); the escaped text holds no angle
    bracket and no ampersand other than the first character of an entity;
    the output of either variant is the escaped text with span tags (and,
    in the variant of [page.tsx], the quote added to keys) inserted, and
    in it every ampersand still starts a whole entity. *)
Theorem highlight_escapes_first s :
  escape s = flat_map escape_char s
  /\ no_angle (escape s)
  /\ entities_ok (escape s) = true
  /\ decorates Part0_tag (Part0.syntaxHighlight s) (escape s)
  /\ decorates Page_tag (Page.syntaxHighlight s) (escape s)
  /\ entities_ok (Part0.syntaxHighlight s) = true
  /\ entities_ok (Page.syntaxHighlight s) = true.
Proof.
  split; [apply escape_pointwise|].
  split; [apply escape_no_angle|].
  split; [apply escape_entities|].
  split; [apply Part0_decorates|].
  split; [apply Page_decorates|].
  split; [apply Part0_entities | apply Page_entities].
Qed.

(** The two structural passes in plain terms: the characters and the
    colours. *)
Lemma wrap_where_brace x :
  wrap_where Page.is_brace TBrace x
  = wrap_chars (lit "{}") (colour_span (lit "#da70d6")) x.
Proof.
  unfold wrap_where, wrap_chars, Page.is_brace.
  change (lit "{}") with [123%N; 125%N]. cbn [existsb]. rewrite orb_false_r.
  change (Page.span_open TBrace) with (colour_span (lit "#da70d6")).
  reflexivity.
Qed.

Lemma wrap_where_bracket x :
  wrap_where Page.is_bracket TBracket x
  = wrap_chars (lit "[]") (colour_span (lit "#ffd700")) x.
Proof.
  unfold wrap_where, wrap_chars, Page.is_bracket.
  change (lit "[]") with [91%N; 93%N]. cbn [existsb]. rewrite orb_false_r.
  change (Page.span_open TBracket) with (colour_span (lit "#ffd700")).
  reflexivity.
Qed.

(** C6, amended.  The output is that of the token pass with every brace,
    wherever it lies, put in a span of colour [#da70d6], and then every
    bracket in a span of colour [#ffd700]. *)
Theorem structural_passes s :
  Page.syntaxHighlight s
  = flat_map (wrap_chars (lit "[]") (colour_span (lit "#ffd700")))
      (flat_map (wrap_chars (lit "{}") (colour_span (lit "#da70d6")))
         (Page.token_pass s)).
Proof.
  unfold Page.syntaxHighlight.
  rewrite (replace_wrap Page.is_brace TBrace).
  rewrite (replace_wrap Page.is_bracket TBracket).
  rewrite (flat_map_ext _ _ wrap_where_bracket).
  f_equal. apply flat_map_ext. exact wrap_where_brace.
Qed.

(** C6 as stated fails: the brace inside a string token is wrapped too. *)
Lemma structural_counterexample :
  Page.token_pass brace_string
  = Page.span_open TString ++ brace_string ++ span_close
  /\ Page.syntaxHighlight brace_string
     = Page.span_open TString ++ [dq]
       ++ (Page.span_open TBrace ++ [123%N] ++ span_close)
       ++ [dq] ++ span_close
  /\ Page.syntaxHighlight brace_string <> Page.token_pass brace_string.
Proof.
  split; [vm_compute; reflexivity|].
  split; [vm_compute; reflexivity|].
  vm_compute. discriminate.
Qed.

(** C7.  When the reported offset is at least the length of the text, the
    walk goes through the whole text: [getErrorLocation] returns the
    counters reached at its end, [getErrorLineNumber] the number of its
    lines. *)
Theorem offset_beyond_text t message p :
  reported (lit "position") message = Some p ->
  (N.of_nat (length t) <= p)%N ->
  Part0.getErrorLocation t message = Some (location_after (code_points t))
  /\ Page.getErrorLineNumber message t
     = Some (Finite (N.of_nat (length (split_on nl t)))).
Proof.
  intros Hp Hle. split.
  - rewrite getErrorLocation_spec, Hp. cbn [option_map].
    rewrite firstn_all2; [reflexivity|].
    pose proof (code_points_length t). lia.
  - rewrite getErrorLineNumber_spec, Hp, split_on_length.
    rewrite firstn_all2; [reflexivity | lia].
Qed.

Lemma offset_beyond_text_witness :
  reported (lit "position") (lit "Unexpected end at position 9") = Some 9%N
  /\ (N.of_nat (length (lit "[1,")) <= 9)%N
  /\ Part0.getErrorLocation (lit "[1,") (lit "Unexpected end at position 9")
     = Some (location_after (code_points (lit "[1,")))
  /\ Page.getErrorLineNumber (lit "Unexpected end at position 9") (lit "[1,")
     = Some (Finite (N.of_nat (length (split_on nl (lit "[1,"))))).
Proof.
  split; [vm_compute; reflexivity|]. split; [vm_compute; discriminate|].
  apply (@offset_beyond_text (lit "[1,") (lit "Unexpected end at position 9") 9%N);
    [vm_compute; reflexivity | vm_compute; discriminate].
Defined.

(** C8, amended.  A location returned by [getErrorLocation] has line and
    column at least 1.  A line returned by [getErrorLineNumber] is a
    natural number, at least 1, when it comes from an offset; otherwise it
    is the double nearest to the number written after the word line in the
    message: that number itself up to [2 ^ 53], so 0 when the message says
    line 0, and [Infinity] from [2 ^ 1024 - 2 ^ 970] on. *)
Theorem location_at_least_one t message :
  match Part0.getErrorLocation t message with
  | Some (line, column) => (1 <= line)%N /\ (1 <= column)%N
  | None => True
  end
  /\ match Page.getErrorLineNumber message t with
     | Some line =>
         (reported (lit "position") message <> None
          /\ exists n, line = Finite n /\ (1 <= n)%N)
         \/ (reported (lit "position") message = None
             /\ exists n, reported (lit "line") message = Some n
                          /\ nearest_double n line
                          /\ ((n <= 2 ^ 53)%N -> line = Finite n)
                          /\ (line = Infinity
                              <-> (2 ^ 1024 - 2 ^ 970 <= n)%N))
     | None => True
     end.
Proof.
  split.
  - rewrite getErrorLocation_spec.
    destruct (reported (lit "position") message) as [p|]; cbn [option_map]; [|exact I].
    unfold location_after.
    destruct (fold_walk_ge (firstn (N.to_nat p) (code_points t)) (1%N, 1%N))
      as [H1 H2]; cbn [fst snd]; try lia.
    destruct (fold_left walk_step _ _). exact (conj H1 H2).
  - rewrite getErrorLineNumber_spec.
    destruct (reported (lit "position") message) as [p|].
    + left. split; [discriminate|]. eexists. split; [reflexivity | lia].
    + destruct (reported (lit "line") message) as [n|]; [|exact I].
      cbn [option_map]. right. split; [reflexivity|]. exists n.
      pose proof (to_double_nearest n) as H.
      split; [reflexivity|]. split; [exact H|]. split.
      * intros Hn. exact (@nearest_double_small n (to_double n) Hn H).
      * destruct (to_double n) as [v|]; cbn [nearest_double] in H.
        -- split; [discriminate|]. destruct H as [H _]. intros C.
           apply N.lt_nge in H. contradiction.
        -- split; [intros _; exact H | reflexivity].
Qed.

(** C8 as stated fails: a message that says line 0 yields line 0. *)
Lemma line_zero_counterexample :
  ~ (forall t message line,
       Page.getErrorLineNumber message t = Some line ->
       exists n, line = Finite n /\ (1 <= n)%N).
Proof.
  intros H.
  assert (E : Page.getErrorLineNumber (lit "Unexpected token at line 0") []
              = Some (Finite 0)) by (vm_compute; reflexivity).
  destruct (H [] (lit "Unexpected token at line 0") (Finite 0) E)
    as (n & En & Hn).
  injection En as <-. vm_compute in Hn. apply Hn. reflexivity.
Qed.

Section HandlerClaims.

Variable number : Type.
Variable JSON_parse : jsstring -> parse_result number.
Variable JSON_stringify : json number -> option N -> jsstring.

(** C5, amended.  On a blank input, format and minify (in both variants)
    clear the output and the error; validate sets the error to its own
    message, clears the error line and leaves the output as it was. *)
Theorem blank_input (sp : Page.state) (s0 : Part0.state) (minify : bool) :
  blank (Page.input sp) = true ->
  blank (Part0.input s0) = true ->
  Page.formatJSON JSON_parse JSON_stringify sp
  = Page.mkState (Page.input sp) [] None None (Page.copied sp)
                 (Page.indentSize sp)
  /\ Page.minifyJSON JSON_parse JSON_stringify sp
     = Page.mkState (Page.input sp) [] None None (Page.copied sp)
                    (Page.indentSize sp)
  /\ Part0.formatJson JSON_parse JSON_stringify minify s0
     = Part0.mkState (Part0.input s0) [] None (Part0.copied s0) []
  /\ Page.validateJSON JSON_parse sp
     = (Page.mkState (Page.input sp) (Page.output sp) (Some enter_json) None
                     (Page.copied sp) (Page.indentSize sp), None).
Proof.
  intros Hp H0. apply trim_blank in Hp, H0.
  unfold Page.formatJSON, Page.minifyJSON, Page.validateJSON,
    Part0.formatJson, Part0.parseAndValidate.
  rewrite Hp, H0. repeat split.
Qed.

(** C9.  When the message holds neither a position marker nor a line
    marker, both locators return nothing, and the handlers keep the raw
    message with no line or column. *)
Theorem unlocated_failure (sp : Page.state) (s0 : Part0.state)
  (minify : bool) (message : jsstring) :
  ~ has_marker (lit "position") message ->
  ~ has_marker (lit "line") message ->
  trim (Page.input sp) <> [] ->
  JSON_parse (Page.input sp) = Thrown message ->
  trim (Part0.input s0) <> [] ->
  JSON_parse (Part0.input s0) = Thrown message ->
  (forall t, Part0.getErrorLocation t message = None
             /\ Page.getErrorLineNumber message t = None)
  /\ Page.formatJSON JSON_parse JSON_stringify sp
     = Page.mkState (Page.input sp) [] (Some message) None (Page.copied sp)
                    (Page.indentSize sp)
  /\ Page.minifyJSON JSON_parse JSON_stringify sp
     = Page.mkState (Page.input sp) [] (Some message) None (Page.copied sp)
                    (Page.indentSize sp)
  /\ Page.validateJSON JSON_parse sp
     = (Page.mkState (Page.input sp) (Page.output sp) (Some message) None
                     (Page.copied sp) (Page.indentSize sp), None)
  /\ Part0.formatJson JSON_parse JSON_stringify minify s0
     = Part0.mkState (Part0.input s0) []
         (Some (Part0.mkJsonError message None None)) (Part0.copied s0) [].
Proof.
  intros Hpos Hline Tp Pp T0 P0.
  apply first_marker_none in Hpos, Hline.
  assert (L : forall t, Part0.getErrorLocation t message = None
                        /\ Page.getErrorLineNumber message t = None).
  { intros t. rewrite getErrorLocation_spec, getErrorLineNumber_spec.
    unfold reported. rewrite Hpos, Hline. split; reflexivity. }
  split; [exact L|].
  unfold Page.formatJSON, Page.minifyJSON, Page.validateJSON,
    Part0.formatJson, Part0.parseAndValidate.
  destruct (trim (Page.input sp)) as [|a x]; [contradiction|].
  destruct (trim (Part0.input s0)) as [|b y]; [contradiction|].
  rewrite Pp, P0.
  rewrite (proj2 (L (Page.input sp))), (proj1 (L (Part0.input s0))).
  repeat split.
Qed.

(** C10.  After format or minify, in either variant, the error is null
    or the output is empty (and so is the highlighted output that the
    variant of [part_000] keeps). *)
Theorem error_excludes_output (sp : Page.state) (s0 : Part0.state)
  (minify : bool) :
  (Page.error (Page.formatJSON JSON_parse JSON_stringify sp) = None
   \/ Page.output (Page.formatJSON JSON_parse JSON_stringify sp) = [])
  /\ (Page.error (Page.minifyJSON JSON_parse JSON_stringify sp) = None
      \/ Page.output (Page.minifyJSON JSON_parse JSON_stringify sp) = [])
  /\ (Part0.error (Part0.formatJson JSON_parse JSON_stringify minify s0) = None
      \/ (Part0.output (Part0.formatJson JSON_parse JSON_stringify minify s0) = []
          /\ Part0.highlightedOutput
               (Part0.formatJson JSON_parse JSON_stringify minify s0) = [])).
Proof.
  unfold Page.formatJSON, Page.minifyJSON, Part0.formatJson,
    Part0.parseAndValidate.
  repeat split.
  - destruct (trim (Page.input sp)); [now left|].
    destruct (JSON_parse (Page.input sp)); cbn; auto.
  - destruct (trim (Page.input sp)); [now left|].
    destruct (JSON_parse (Page.input sp)); cbn; auto.
  - destruct (trim (Part0.input s0)); [now left|].
    destruct (JSON_parse (Part0.input s0)) as [v|msg]; cbn; [|auto].
    destruct (is_null v); now left.
Qed.

End HandlerClaims.

Lemma blank_input_witness :
  blank (Page.input (page_state [32%N; 10%N] (lit "[]"))) = true
  /\ blank (Part0.input (part0_state [32%N; 10%N] (lit "[]"))) = true
  /\ Page.formatJSON (reject []) print_nothing (page_state [32%N; 10%N] (lit "[]"))
     = Page.mkState [32%N; 10%N] [] None None false 2
  /\ Page.minifyJSON (reject []) print_nothing (page_state [32%N; 10%N] (lit "[]"))
     = Page.mkState [32%N; 10%N] [] None None false 2
  /\ Part0.formatJson (reject []) print_nothing true
       (part0_state [32%N; 10%N] (lit "[]"))
     = Part0.mkState [32%N; 10%N] [] None false []
  /\ Page.validateJSON (reject []) (page_state [32%N; 10%N] (lit "[]"))
     = (Page.mkState [32%N; 10%N] (lit "[]") (Some enter_json) None false 2,
        None).
Proof.
  split; [vm_compute; reflexivity|]. split; [vm_compute; reflexivity|].
  apply (@blank_input unit (reject []) print_nothing
           (page_state [32%N; 10%N] (lit "[]"))
           (part0_state [32%N; 10%N] (lit "[]")) true); vm_compute; reflexivity.
Defined.

(** C5 as stated fails for validate: on a blank input it reports an error
    and keeps the output it found. *)
Lemma blank_validate_counterexample :
  ~ (forall sp : Page.state,
       blank (Page.input sp) = true ->
       Page.output (fst (Page.validateJSON (reject []) sp)) = []
       /\ Page.error (fst (Page.validateJSON (reject []) sp)) = None).
Proof.
  intros H.
  assert (B : blank (Page.input (page_state [32%N] (lit "[]"))) = true)
    by (vm_compute; reflexivity).
  destruct (H (page_state [32%N] (lit "[]")) B) as [_ E].
  vm_compute in E. discriminate E.
Qed.

Lemma unlocated_failure_witness :
  ~ has_marker (lit "position") (lit "Unexpected end of JSON input")
  /\ ~ has_marker (lit "line") (lit "Unexpected end of JSON input")
  /\ (forall t,
        Part0.getErrorLocation t (lit "Unexpected end of JSON input") = None
        /\ Page.getErrorLineNumber (lit "Unexpected end of JSON input") t
           = None)
  /\ Page.formatJSON (reject (lit "Unexpected end of JSON input")) print_nothing
       (page_state (lit "[1,") [])
     = Page.mkState (lit "[1,") []
         (Some (lit "Unexpected end of JSON input")) None false 2
  /\ Part0.formatJson (reject (lit "Unexpected end of JSON input"))
       print_nothing false (part0_state (lit "[1,") [])
     = Part0.mkState (lit "[1,") []
         (Some (Part0.mkJsonError (lit "Unexpected end of JSON input")
                  None None)) false [].
Proof.
  assert (Hp : ~ has_marker (lit "position") (lit "Unexpected end of JSON input"))
    by (apply first_marker_none; vm_compute; reflexivity).
  assert (Hl : ~ has_marker (lit "line") (lit "Unexpected end of JSON input"))
    by (apply first_marker_none; vm_compute; reflexivity).
  split; [exact Hp|]. split; [exact Hl|].
  destruct (@unlocated_failure unit
              (reject (lit "Unexpected end of JSON input")) print_nothing
              (page_state (lit "[1,") []) (part0_state (lit "[1,") []) false
              (lit "Unexpected end of JSON input") Hp Hl)
    as (L & F & _ & _ & F0);
    try (vm_compute; reflexivity); try (vm_compute; discriminate).
  split; [exact L|]. split; [exact F | exact F0].
Defined.

(** * Further properties of the code *)

(** ** More on the locators *)

Lemma location_after_snoc chars char :
  location_after (chars ++ [char]) = walk_step (location_after chars) char.
Proof. unfold location_after. now rewrite fold_left_app. Qed.

Lemma location_after_counts chars :
  location_after chars
  = (N.of_nat (S (newlines chars)), N.of_nat (S (last_line_length chars))).
Proof.
  induction chars as [|char chars IH] using rev_ind; [reflexivity|].
  rewrite location_after_snoc, IH. unfold walk_step, newlines, last_line_length.
  rewrite filter_app, length_app, rev_app_distr. cbn [fst snd rev app filter run_length].
  destruct (is_newline char); cbn [negb length]; f_equal; lia.
Qed.

(** X1.  The location of [getErrorLocation]: the line is one more than the
    number of newlines among the first [p] characters, the column one more
    than the number of characters after the last of these newlines. *)
Theorem location_counts t message p :
  reported (lit "position") message = Some p ->
  Part0.getErrorLocation t message
  = Some (N.of_nat (S (newlines (firstn (N.to_nat p) (code_points t)))),
          N.of_nat (S (last_line_length
                         (firstn (N.to_nat p) (code_points t))))).
Proof.
  intros Hp. rewrite getErrorLocation_spec, Hp. cbn [option_map].
  now rewrite location_after_counts.
Qed.

Lemma location_counts_witness :
  reported (lit "position") (lit "Unexpected token at position 4") = Some 4%N
  /\ Part0.getErrorLocation [91%N; 10%N; 49%N; 44%N; 93%N]
       (lit "Unexpected token at position 4")
     = Some (N.of_nat (S (newlines (firstn (N.to_nat 4)
                            (code_points [91%N; 10%N; 49%N; 44%N; 93%N])))),
             N.of_nat (S (last_line_length (firstn (N.to_nat 4)
                            (code_points [91%N; 10%N; 49%N; 44%N; 93%N]))))).
Proof.
  split; [vm_compute; reflexivity|].
  apply (@location_counts [91%N; 10%N; 49%N; 44%N; 93%N]
           (lit "Unexpected token at position 4") 4%N).
  vm_compute. reflexivity.
Defined.

Lemma filter_length_le {A : Type} (p : A -> bool) (l : list A) :
  length (filter p l) <= length l.
Proof.
  induction l as [|x l IH]; [reflexivity|].
  cbn [filter]. destruct (p x); cbn [length]; lia.
Qed.

Lemma newlines_prefix n chars : newlines (firstn n chars) <= newlines chars.
Proof.
  unfold newlines. rewrite <- (firstn_skipn n chars) at 2.
  rewrite filter_app, length_app. lia.
Qed.

Lemma run_length_le {A : Type} (p : A -> bool) (l : list A) :
  run_length p l <= length l.
Proof.
  induction l as [|x l IH]; [reflexivity|].
  cbn [run_length]. destruct (p x); cbn [length]; lia.
Qed.

Lemma code_points_newlines : forall n s, length s <= n ->
  newlines (code_points s) = count_occ N.eq_dec s nl.
Proof.
  unfold newlines.
  induction n as [|n IH]; intros s H.
  - destruct s; [reflexivity | cbn in H; lia].
  - destruct s as [|c [|d s]]; [reflexivity | |].
    + cbn [code_points filter is_newline count_occ].
      destruct (N.eq_dec c nl) as [->|Hc]; [reflexivity|].
      apply N.eqb_neq in Hc. now rewrite Hc.
    + rewrite code_points_pair.
      destruct (is_high_surrogate c && is_low_surrogate d) eqn:E.
      * apply andb_true_iff in E. destruct E as [E1 E2].
        cbn [filter is_newline]. rewrite IH by (cbn in H |- *; lia).
        cbn [count_occ].
        destruct (N.eq_dec c nl) as [->|_]; [cbv in E1; discriminate E1|].
        destruct (N.eq_dec d nl) as [->|_]; [cbv in E2; discriminate E2|].
        reflexivity.
      * cbn [filter is_newline].
        change (count_occ N.eq_dec (c :: d :: s) nl)
          with (if N.eq_dec c nl then S (count_occ N.eq_dec (d :: s) nl)
                else count_occ N.eq_dec (d :: s) nl).
        destruct (N.eq_dec c nl) as [->|Hc].
        -- rewrite N.eqb_refl. cbn [length].
           now rewrite IH by (cbn in H |- *; lia).
        -- apply N.eqb_neq in Hc. rewrite Hc.
           now rewrite IH by (cbn in H |- *; lia).
Qed.

(** X2.  A location computed from an offset never lies beyond the text:
    the line is at most the number of lines of the text, the column at
    most one more than its number of characters. *)
Theorem location_within_text t message :
  match Part0.getErrorLocation t message with
  | Some (line, column) =>
      (line <= N.of_nat (length (split_on nl t)))%N
      /\ (column <= N.of_nat (S (length (code_points t))))%N
  | None => True
  end
  /\ match reported (lit "position") message,
           Page.getErrorLineNumber message t with
     | Some _, Some line =>
         exists n, line = Finite n
                   /\ (n <= N.of_nat (length (split_on nl t)))%N
     | _, _ => True
     end.
Proof.
  split.
  - rewrite getErrorLocation_spec.
    destruct (reported (lit "position") message) as [p|]; cbn [option_map]; [|exact I].
    rewrite location_after_counts, split_on_length.
    pose proof (newlines_prefix (N.to_nat p) (code_points t)) as H1.
    rewrite (code_points_newlines (n:=length t)) in H1 by reflexivity.
    pose proof (run_length_le (fun char => negb (is_newline char))
                  (rev (firstn (N.to_nat p) (code_points t)))) as H2.
    rewrite length_rev, length_firstn in H2.
    unfold last_line_length. split; lia.
  - rewrite getErrorLineNumber_spec.
    destruct (reported (lit "position") message) as [p|]; [|exact I].
    eexists. split; [reflexivity|]. rewrite split_on_length.
    assert (count_occ N.eq_dec (firstn (N.to_nat p) t) nl
            <= count_occ N.eq_dec t nl).
    { rewrite <- (firstn_skipn (N.to_nat p) t) at 2.
      rewrite count_occ_app. lia. }
    lia.
Qed.

(** ** When the locators answer *)

Lemma first_marker_some w : forall s,
  first_marker w s <> None <-> has_marker w s.
Proof.
  intros s. split.
  - induction s as [|c s IH]; cbn [first_marker]; intros F.
    + destruct (marker_here w []) eqn:M; [|contradiction].
      assert (M' : marker_here w [] <> None) by congruence.
      apply marker_here_some in M'. destruct M' as (x & ws & d & post & E & H).
      exists [], x, ws, d, post. auto.
    + destruct (marker_here w (c :: s)) eqn:M.
      * assert (M' : marker_here w (c :: s) <> None) by congruence.
        apply marker_here_some in M'.
        destruct M' as (x & ws & d & post & E & H).
        exists [], x, ws, d, post. auto.
      * destruct (IH F) as (pre & x & ws & d & post & -> & H).
        exists (c :: pre), x, ws, d, post. auto.
  - intros H E. apply first_marker_none in E. contradiction.
Qed.

Lemma reported_some w message :
  reported w message <> None <-> has_marker w message.
Proof.
  rewrite <- first_marker_some. unfold reported.
  destruct (first_marker w message); cbn; split; congruence.
Qed.

(** X3.  [getErrorLocation] returns a location exactly when the message
    holds a position marker; [getErrorLineNumber] returns a line exactly
    when the message holds a position marker or a line marker. *)
Theorem locators_present t message :
  (Part0.getErrorLocation t message <> None
   <-> has_marker (lit "position") message)
  /\ (Page.getErrorLineNumber message t <> None
      <-> has_marker (lit "position") message
          \/ has_marker (lit "line") message).
Proof.
  rewrite getErrorLocation_spec, getErrorLineNumber_spec.
  rewrite <- !reported_some.
  destruct (reported (lit "position") message) as [p|]; cbn [option_map].
  - split; split; intros; try left; discriminate.
  - split; [tauto|].
    destruct (reported (lit "line") message) as [n|]; cbn [option_map].
    + split; [intros _; right; discriminate | discriminate].
    + split; [tauto|]. intros [H|H]; now destruct H.
Qed.

(** ** The two locators side by side *)

Lemma code_points_single : forall t,
  no_surrogate t = true -> code_points t = map (fun c => [c]) t.
Proof.
  induction t as [|c t IH]; intros H; [reflexivity|].
  cbn [no_surrogate forallb] in H. apply andb_true_iff in H. destruct H as [Hc Ht].
  destruct t as [|d t]; [reflexivity|].
  rewrite code_points_pair. apply negb_true_iff in Hc. rewrite Hc.
  cbn [andb map]. f_equal. apply IH. exact Ht.
Qed.

Lemma newlines_single t :
  newlines (map (fun c => [c]) t) = count_occ N.eq_dec t nl.
Proof.
  unfold newlines. induction t as [|c t IH]; [reflexivity|].
  cbn [map filter is_newline count_occ].
  destruct (N.eq_dec c nl) as [->|Hc].
  - rewrite N.eqb_refl. cbn [length]. now rewrite IH.
  - apply N.eqb_neq in Hc. now rewrite Hc.
Qed.

Lemma newlines_concat (chars : list jsstring) :
  Forall (fun char => is_newline char = false -> ~ In nl char) chars ->
  count_occ N.eq_dec (concat chars) nl = newlines chars.
Proof.
  unfold newlines. induction 1 as [|char chars Hc _ IH]; [reflexivity|].
  cbn [concat filter]. rewrite count_occ_app, IH.
  destruct (is_newline char) eqn:E.
  - destruct char as [|c [|d char]]; try discriminate E.
    cbn [is_newline] in E. apply N.eqb_eq in E. subst c.
    cbn [count_occ length]. destruct (N.eq_dec nl nl); [reflexivity | contradiction].
  - rewrite (proj1 (count_occ_not_In N.eq_dec char nl)); [reflexivity | auto].
Qed.

(** X4.  With a position marker in the message both locators answer, and
    the line of [getErrorLineNumber] (which counts code units) is at most
    that of [getErrorLocation] (which counts code points); the two lines
    are equal on a text without surrogates. *)
Theorem locators_agree t message p :
  reported (lit "position") message = Some p ->
  exists line column line',
    Part0.getErrorLocation t message = Some (line, column)
    /\ Page.getErrorLineNumber message t = Some (Finite line')
    /\ (line' <= line)%N
    /\ (no_surrogate t = true -> line' = line).
Proof.
  intros Hp. rewrite getErrorLocation_spec, getErrorLineNumber_spec, Hp.
  cbn [option_map]. rewrite location_after_counts.
  do 3 eexists. split; [reflexivity|]. split; [reflexivity|].
  set (n := N.to_nat p). split.
  - destruct (firstn_units_in_points n t) as (r & E).
    pose proof (code_points_newline (n:=length t) t (le_n _)) as NL.
    apply (Forall_prefix n) in NL.
    rewrite <- (newlines_concat NL), E, count_occ_app. lia.
  - intros H. rewrite (code_points_single t H), firstn_map, newlines_single.
    reflexivity.
Qed.

Lemma locators_agree_witness :
  reported (lit "position") (lit "Unexpected token at position 4") = Some 4%N
  /\ exists line column line',
       Part0.getErrorLocation [91%N; 10%N; 49%N; 44%N; 93%N]
         (lit "Unexpected token at position 4") = Some (line, column)
       /\ Page.getErrorLineNumber (lit "Unexpected token at position 4")
            [91%N; 10%N; 49%N; 44%N; 93%N] = Some (Finite line')
       /\ (line' <= line)%N
       /\ (no_surrogate [91%N; 10%N; 49%N; 44%N; 93%N] = true -> line' = line).
Proof.
  split; [vm_compute; reflexivity|].
  apply (@locators_agree [91%N; 10%N; 49%N; 44%N; 93%N]
           (lit "Unexpected token at position 4") 4%N).
  vm_compute. reflexivity.
Defined.

(** X5.  The line of [getErrorLineNumber]: with a position marker in the
    message it is one more than the number of newlines among the first [p]
    code units of the input, whether or not the message also holds a line
    marker; without one it is the double nearest to the number of the line
    marker, if any. *)
Theorem line_number_counts message t :
  match reported (lit "position") message with
  | Some p =>
      Page.getErrorLineNumber message t
      = Some (Finite
                (N.of_nat (S (count_occ N.eq_dec (firstn (N.to_nat p) t) nl))))
  | None =>
      match reported (lit "line") message with
      | Some n =>
          exists d, Page.getErrorLineNumber message t = Some d
                    /\ nearest_double n d
      | None => Page.getErrorLineNumber message t = None
      end
  end.
Proof.
  unfold Page.getErrorLineNumber, position_re, line_re.
  rewrite <- !exec_reported.
  destruct (exec (marker_re (lit "position")) message) as [f|]; cbn [option_map].
  - unfold substring0. now rewrite split_on_length.
  - destruct (exec (marker_re (lit "line")) message) as [g|]; cbn [option_map];
      [|reflexivity].
    eexists. split; [reflexivity|]. apply to_double_nearest.
Qed.

(** ** The escaping step loses nothing *)

Lemma escape_char_head c :
  exists a r, escape_char c = a :: r
    /\ (a = amp -> c = amp \/ c = lt \/ c = gt)
    /\ (a <> amp -> r = [] /\ a = c).
Proof.
  destruct (escape_char_cases c)
    as [[-> ->]|[[-> ->]|[[-> ->]|(Ha & Hl & Hg & ->)]]].
  - exists amp, (lit "amp;"). split; [reflexivity|]. split; [auto|]. intros H. now destruct H.
  - exists amp, (lit "lt;"). split; [reflexivity|]. split; [auto|]. intros H. now destruct H.
  - exists amp, (lit "gt;"). split; [reflexivity|]. split; [auto|]. intros H. now destruct H.
  - exists c, []. split; [reflexivity|]. split; [intros ->; contradiction | auto].
Qed.

Lemma escape_char_inj c c' r r' :
  escape_char c ++ r = escape_char c' ++ r' -> c = c' /\ r = r'.
Proof.
  destruct (escape_char_cases c)
    as [[-> ->]|[[-> ->]|[[-> ->]|(Ha & Hl & Hg & ->)]]];
  destruct (escape_char_cases c')
    as [[-> ->]|[[-> ->]|[[-> ->]|(Ha' & Hl' & Hg' & ->)]]];
  cbn [lit list_ascii_of_string map app]; intros E;
  try (injection E as E; subst; first [now split | congruence | discriminate]);
  try discriminate.
Qed.

(** X6.  Escaping is one to one: two texts with the same escaped form are
    the same text. *)
Theorem escape_injective s s' : escape s = escape s' -> s = s'.
Proof.
  rewrite !escape_pointwise. revert s'.
  induction s as [|c s IH]; intros [|c' s'] E; cbn [flat_map] in E.
  - reflexivity.
  - destruct (escape_char_head c') as (a & r & H & _). rewrite H in E. discriminate.
  - destruct (escape_char_head c) as (a & r & H & _). rewrite H in E. discriminate.
  - apply escape_char_inj in E. destruct E as [-> E]. f_equal. now apply IH.
Qed.

Lemma escape_injective_witness :
  escape [amp; lt] = escape [amp; lt] /\ [amp; lt] = [amp; lt].
Proof.
  split; [reflexivity|]. apply (@escape_injective [amp; lt] [amp; lt]). reflexivity.
Defined.

(** X7.  Escaping changes a text exactly when it holds an ampersand or an
    angle bracket. *)
Theorem escape_fixed s :
  escape s = s
  <-> forallb (fun c => negb ((c =? amp) || (c =? lt) || (c =? gt))%N) s = true.
Proof.
  rewrite escape_pointwise. split.
  - induction s as [|c s IH]; [reflexivity|]. cbn [flat_map forallb]. intros E.
    destruct (escape_char_cases c)
      as [[-> Hc]|[[-> Hc]|[[-> Hc]|(Ha & Hl & Hg & Hc)]]]; rewrite Hc in E.
    + exfalso. apply (f_equal (@length N)) in E.
      rewrite length_app in E.
      assert (length s <= length (flat_map escape_char s)).
      { clear. induction s as [|c s IH]; [reflexivity|]. cbn [flat_map].
        rewrite length_app. destruct (escape_char_head c) as (a & r & -> & _).
        cbn [length]. lia. }
      cbn [lit list_ascii_of_string map length] in E. lia.
    + exfalso. injection E as E1 E. cbv in E1. discriminate E1.
    + exfalso. injection E as E1 E. cbv in E1. discriminate E1.
    + injection E as E. rewrite (IH E), andb_true_r.
      apply N.eqb_neq in Ha, Hl, Hg. now rewrite Ha, Hl, Hg.
  - induction s as [|c s IH]; [reflexivity|]. cbn [flat_map forallb]. intros H.
    apply andb_true_iff in H. destruct H as [Hc Hs].
    rewrite (IH Hs). apply negb_true_iff in Hc.
    apply orb_false_iff in Hc. destruct Hc as [Hc Hg].
    apply orb_false_iff in Hc. destruct Hc as [Ha Hl].
    unfold escape_char. now rewrite Ha, Hl, Hg.
Qed.

(** ** What the callbacks emit *)

Lemma removelast_snoc {A : Type} (b : list A) (x : A) : removelast (b ++ [x]) = b.
Proof. rewrite removelast_app by discriminate. cbn. apply app_nil_r. Qed.

(** X8.  The callback of [page.tsx] wraps a token in the span of its
    class; the text is emitted as matched, except that of a key, which
    ends with a colon and is emitted with a quote inserted before it. *)
Theorem page_replacer_emits m cs :
  Page.replacer m cs
  = Page.span_open (classify m)
    ++ match classify m with
       | TKey => removelast m ++ [dq; colon]
       | _ => m
       end
    ++ span_close
  /\ match classify m with
     | TKey => m = removelast m ++ [colon]
     | _ => True
     end.
Proof.
  destruct (classify m) eqn:E.
  1:{ destruct (Page_replacer_key m cs E) as (b & -> & ->).
      rewrite removelast_snoc. split; reflexivity. }
  all: split; [|exact I]; rewrite Page_replacer_other by congruence;
    now rewrite E.
Qed.

(** X9.  The highlighter of [part_000] cuts the escaped text into code
    units it copies and tokens it wraps, each token unchanged between the
    opening tag of its class and the closing tag. *)
Theorem part0_wraps_tokens s :
  exists items,
    flat_map raw items = escape s
    /\ Part0.syntaxHighlight s
       = flat_map (fun it => match it with
                             | Lit c => [c]
                             | Hit m _ =>
                                 Part0.span_open (classify m) ++ m
                                 ++ span_close
                             end) items
    /\ forall m cs, In (Hit m cs) items -> tok_shape (classify m) m.
Proof.
  exists (scan (token_re is_hex) None 0 (escape s)).
  split; [apply scan_raw|]. split.
  - unfold Part0.syntaxHighlight, replace_all. apply flat_map_ext.
    intros [c|m cs]; reflexivity.
  - intros m cs H. apply token_classification in H.
    destruct H as (c & H & <-). exact H.
Qed.

(** ** Keywords stand alone *)

Lemma scan_hit_pos re : forall s p k m cs,
  In (Hit m cs) (scan re p k s) ->
  exists pre st,
    s = pre ++ m ++ rest st /\ cs = caps st
    /\ match_here re (lastp p pre) (m ++ rest st) = Some st.
Proof.
  assert (Hhere : forall p s st,
            match_here re p s = Some st ->
            s = [] ++ consumed s (rest st) ++ rest st
            /\ caps st = caps st
            /\ match_here re (lastp p []) (consumed s (rest st) ++ rest st)
               = Some st).
  { intros p s st E. pose proof (match_here_sound _ _ _ E) as [E' _].
    cbn [app]. rewrite lastp_nil, <- E'. auto. }
  induction s as [|c s IH]; intros p k m cs H.
  - destruct k; cbn [scan] in H; [|contradiction].
    destruct (match_here re p []) as [st|] eqn:E; [|contradiction].
    destruct H as [H|[]]. injection H as <- <-. exists [], st. now apply Hhere.
  - assert (Htail : forall k',
              In (Hit m cs) (scan re (Some c) k' s) ->
              exists pre st,
                c :: s = pre ++ m ++ rest st /\ cs = caps st
                /\ match_here re (lastp p pre) (m ++ rest st) = Some st).
    { intros k' H'. destruct (IH _ _ _ _ H') as (pre & st & E1 & E2 & E3).
      exists (c :: pre), st. cbn [app]. rewrite <- E1, lastp_cons. auto. }
    destruct k as [|k]; [|cbn [scan] in H; eauto].
    cbn [scan] in H.
    destruct (match_here re p (c :: s)) as [st|] eqn:E.
    + destruct H as [H|H].
      * injection H as <- <-. exists [], st. now apply Hhere.
      * destruct (length (c :: s) - length (rest st)).
        -- destruct H as [H|H]; [discriminate | eauto].
        -- eauto.
    + destruct H as [H|H]; [discriminate | eauto].
Qed.

Lemma keyword_is_word m :
  m = lit "true" \/ m = lit "false" \/ m = lit "null" ->
  exists a b u, m = a :: u /\ is_word a = true
                /\ lastp None m = Some b /\ is_word b = true.
Proof.
  intros [->|[->| ->]]; do 3 eexists; repeat split; reflexivity.
Qed.

(** X10.  A token of class boolean or null is never part of a longer word:
    in the text, the code unit before it and the code unit after it are
    not letters, digits or underscores. *)
Theorem keyword_stands_alone h s m cs :
  In (Hit m cs) (scan (token_re h) None 0 s) ->
  classify m = TBoolean \/ classify m = TNull ->
  exists pre q,
    s = pre ++ m ++ q
    /\ is_word_opt (lastp None pre) = false
    /\ is_word_opt (hd_error q) = false.
Proof.
  intros H C. apply scan_hit_pos in H.
  destruct H as (pre & st & Es & _ & E).
  exists pre, (rest st). split; [exact Es|].
  apply match_here_sound in E. rewrite consumed_app in E. destruct E as [_ S].
  destruct S as [S|[S|S]].
  - apply spans_string in S. destruct S as [S|S]; apply classify_shape in S;
      destruct C; congruence.
  - pose proof (spans_keyword S) as K.
    destruct S as (x1 & x2 & Em & [-> W1] & x3 & x4 & -> & S3 & [-> W2]).
    cbn [app] in *. rewrite app_nil_r in *. subst x3.
    destruct (keyword_is_word K) as (a & b & u & Ea & Ha & Eb & Hb).
    rewrite lastp_nil in W2.
    assert (L : lastp (lastp None pre) m = Some b).
    { destruct K as [->|[->| ->]]; cbv in Eb |- *; exact Eb. }
    rewrite L in W2. cbn [is_word_opt] in W2. rewrite Hb in W2.
    rewrite Ea in W1. cbn [app hd_error is_word_opt] in W1. rewrite Ha in W1.
    split.
    + destruct (is_word_opt (lastp None pre)); [discriminate W1 | reflexivity].
    + destruct (is_word_opt (hd_error (rest st))); [discriminate W2 | reflexivity].
  - apply spans_number in S. apply S_Number in S. apply classify_shape in S.
    destruct C; congruence.
Qed.

Lemma keyword_stands_alone_witness :
  In (Hit (lit "true") [(1, lit "true"); (4, lit "true")])
     (scan (token_re is_hex) None 0 (lit "[true]"))
  /\ (classify (lit "true") = TBoolean \/ classify (lit "true") = TNull)
  /\ exists pre q,
       lit "[true]" = pre ++ lit "true" ++ q
       /\ is_word_opt (lastp None pre) = false
       /\ is_word_opt (hd_error q) = false.
Proof.
  split; [vm_compute; right; left; reflexivity|].
  split; [left; vm_compute; reflexivity|].
  apply (@keyword_stands_alone is_hex (lit "[true]") (lit "true")
           [(1, lit "true"); (4, lit "true")]).
  - vm_compute. right. left. reflexivity.
  - left. vm_compute. reflexivity.
Defined.

(** ** The size of the output *)

Lemma decorates_length tag out src :
  decorates tag out src -> length src <= length out.
Proof.
  induction 1 as [|c out src _ IH|t out src _ _ IH]; cbn [length].
  - reflexivity.
  - lia.
  - rewrite length_app. lia.
Qed.

Lemma escape_length s : length s <= length (escape s).
Proof.
  rewrite escape_pointwise.
  induction s as [|c s IH]; [reflexivity|]. cbn [flat_map].
  rewrite length_app. destruct (escape_char_head c) as (a & r & -> & _).
  cbn [length]. lia.
Qed.

(** X11.  Highlighting never shortens a text, and the output is empty
    exactly when the text is. *)
Theorem highlight_size s :
  length s <= length (Part0.syntaxHighlight s)
  /\ length s <= length (Page.syntaxHighlight s)
  /\ (Part0.syntaxHighlight s = [] <-> s = [])
  /\ (Page.syntaxHighlight s = [] <-> s = []).
Proof.
  pose proof (escape_length s) as E.
  pose proof (decorates_length (Part0_decorates s)) as L0.
  pose proof (decorates_length (Page_decorates s)) as L1.
  assert (Z : forall x : jsstring, length x <= 0 -> x = []).
  { intros [|a x] H; [reflexivity | cbn in H; lia]. }
  split; [lia|]. split; [lia|]. split; split; intros H.
  - apply Z. rewrite H in L0. cbn [length] in L0. lia.
  - subst s. vm_compute. reflexivity.
  - apply Z. rewrite H in L1. cbn [length] in L1. lia.
  - subst s. vm_compute. reflexivity.
Qed.

(** ** The output is well-nested markup *)

Lemma wn_app opener x y :
  well_nested opener x -> well_nested opener y -> well_nested opener (x ++ y).
Proof.
  intros Hx Hy. induction Hx as [|c x Hl Hg _ IH|o body x Ho Hb _ _ IH]; cbn [app].
  - exact Hy.
  - now constructor.
  - rewrite <- !app_assoc. now constructor.
Qed.

Lemma wn_text opener m : no_angle m -> well_nested opener m.
Proof.
  induction 1 as [|c m [Hl Hg] _ IH]; constructor; assumption.
Qed.

Lemma wn_wrapped opener o m x :
  opener o -> no_angle m -> well_nested opener x ->
  well_nested opener ((o ++ m ++ span_close) ++ x).
Proof.
  intros Ho Hm Hx. rewrite <- !app_assoc.
  constructor; [exact Ho | now apply wn_text | exact Hx].
Qed.

Lemma wn_render opener f : forall items,
  (forall m cs x, no_angle m -> well_nested opener x ->
                  well_nested opener (f m cs ++ x)) ->
  no_angle (flat_map raw items) ->
  well_nested opener (flat_map (render f) items).
Proof.
  intros items Hf. induction items as [|it items IH]; intros H; [constructor|].
  cbn [flat_map] in *. apply Forall_app in H. destruct H as [H1 H2].
  destruct it as [c|m cs]; cbn [render raw] in *.
  - inversion H1 as [|? ? [Hl Hg] _]; subst. cbn [app]. constructor; auto.
  - apply Hf; auto.
Qed.

Lemma wn_replace_all opener re f s :
  (forall m cs x, no_angle m -> well_nested opener x ->
                  well_nested opener (f m cs ++ x)) ->
  no_angle s -> well_nested opener (replace_all re f s).
Proof.
  intros Hf Hs. unfold replace_all. apply wn_render; [exact Hf|].
  now rewrite scan_raw.
Qed.

Lemma Part0_well_nested s : well_nested Part0_opener (Part0.syntaxHighlight s).
Proof.
  unfold Part0.syntaxHighlight. apply wn_replace_all; [|apply escape_no_angle].
  intros m cs x Hm Hx. unfold Part0.replacer.
  apply wn_wrapped; [eexists; reflexivity | exact Hm | exact Hx].
Qed.

Lemma Page_token_pass_well_nested s :
  well_nested Page_opener (Page.token_pass s).
Proof.
  unfold Page.token_pass. apply wn_replace_all; [|apply escape_no_angle].
  intros m cs x Hm Hx.
  destruct (classify m) eqn:E.
  1:{ destruct (Page_replacer_key m cs E) as (b & -> & ->).
      apply wn_wrapped; [eexists; reflexivity | | exact Hx].
      apply Forall_app in Hm. destruct Hm as [Hb _].
      apply Forall_app. split; [exact Hb|].
      repeat constructor; discriminate. }
  all: rewrite Page_replacer_other by congruence; rewrite E;
    apply wn_wrapped; [eexists; reflexivity | exact Hm | exact Hx].
Qed.

Lemma wn_wrap p c x :
  p lt = false -> p gt = false ->
  (forall o, Page_opener o -> forallb (fun a => negb (p a)) o = true) ->
  forallb (fun a => negb (p a)) span_close = true ->
  well_nested Page_opener x ->
  well_nested Page_opener (flat_map (wrap_where p c) x).
Proof.
  intros Hl Hg Ho Hc H.
  induction H as [|a x Hal Hag _ IH|o body x Hop _ IHb _ IHx].
  - constructor.
  - cbn [flat_map]. unfold wrap_where at 1. destruct (p a).
    + rewrite <- !app_assoc. constructor; [eexists; reflexivity | | exact IH].
      constructor; [exact Hal | exact Hag | constructor].
    + cbn [app]. constructor; assumption.
  - rewrite !flat_map_app.
    rewrite (wrap_plain p c o) by (apply Ho; exact Hop).
    rewrite (wrap_plain p c span_close) by exact Hc.
    constructor; assumption.
Qed.

Lemma opener_plain o :
  Page_opener o ->
  forallb (fun a => negb (Page.is_brace a)) o = true
  /\ forallb (fun a => negb (Page.is_bracket a)) o = true.
Proof. intros (c & ->). destruct c; split; reflexivity. Qed.

(** X12.  The output of either highlighter is well-nested markup: text
    without angle brackets, and spans that are each opened by a tag of the
    variant and closed, one inside or after the other. *)
Theorem markup_well_nested s :
  well_nested Part0_opener (Part0.syntaxHighlight s)
  /\ well_nested Page_opener (Page.syntaxHighlight s).
Proof.
  split; [apply Part0_well_nested|].
  rewrite Page_passes.
  apply wn_wrap; try reflexivity; [intros o Ho; now apply opener_plain|].
  apply wn_wrap; try reflexivity; [intros o Ho; now apply opener_plain|].
  apply Page_token_pass_well_nested.
Qed.

(** ** The gutter *)

Lemma map_index_numbers {A : Type} : forall (l : list A) (i : N),
  map_index (fun _ j => (j + 1)%N) i l
  = map (fun k => (i + N.of_nat k)%N) (seq 1 (length l)).
Proof.
  induction l as [|x l IH]; intros i; [reflexivity|].
  cbn [map_index length seq map]. f_equal; try lia.
  rewrite IH, <- (seq_shift (length l) 1), map_map. apply map_ext. intros k. lia.
Qed.

Lemma numbers_of_lines text :
  map_index (fun _ j => (j + 1)%N) 0%N (split_on nl text)
  = line_numbers_of text.
Proof.
  rewrite map_index_numbers, split_on_length. unfold line_numbers_of.
  apply map_ext. intros k. lia.
Qed.

(** X13.  The gutter holds the numbers 1, 2, ... up to the number of lines
    of the text shown (one more than its newlines): the output, or in
    [page.tsx] the input when there is no output; it is empty when there is
    no text. *)
Theorem gutter_numbers (sp : Page.state) (s0 : Part0.state) :
  Page.lineNumbers sp
  = match shown_text sp with
    | [] => []
    | _ :: _ => line_numbers_of (shown_text sp)
    end
  /\ Part0.lineNumbers s0
     = match Part0.output s0 with
       | [] => []
       | _ :: _ => line_numbers_of (Part0.output s0)
       end.
Proof.
  unfold Page.lineNumbers, Part0.lineNumbers, shown_text. split.
  - destruct (Page.output sp) as [|a o]; [|apply numbers_of_lines].
    destruct (Page.input sp) as [|a i]; [reflexivity | apply numbers_of_lines].
  - destruct (Part0.output s0) as [|a o]; [reflexivity | apply numbers_of_lines].
Qed.

Lemma Part0_highlight_nil : Part0.syntaxHighlight [] = [].
Proof. vm_compute. reflexivity. Qed.

Lemma Part0_highlight_empty s : Part0.syntaxHighlight s = [] -> s = [].
Proof.
  intros H. pose proof (escape_length s) as E.
  pose proof (decorates_length (Part0_decorates s)) as L. rewrite H in L.
  destruct s; [reflexivity | cbn [length] in *; lia].
Qed.

(** ** The variants side by side *)

Lemma drop_while_nil p s : drop_while p s = [] -> forallb p s = true.
Proof.
  induction s as [|c s IH]; cbn [drop_while forallb]; [reflexivity|].
  destruct (p c); [exact IH | discriminate].
Qed.

(** Only a blank text is trimmed to nothing. *)
Lemma trim_nil_blank s : trim s = [] -> blank s = true.
Proof.
  unfold trim, trim_start, blank. intros H.
  apply (f_equal (@rev N)) in H. rewrite rev_involutive in H. cbn [rev] in H.
  apply drop_while_nil in H. rewrite forallb_forall in H.
  apply drop_while_nil.
  pose proof (drop_while_head is_space s) as D.
  destruct (drop_while is_space s) as [|c r]; [reflexivity|].
  rewrite (H c) in D; [discriminate|]. apply in_rev. rewrite rev_involutive.
  now left.
Qed.

Lemma is_null_JNull (number : Type) (v : json number) :
  is_null v = true <-> v = JNull.
Proof. destruct v; cbn; split; congruence. Qed.

Section MoreHandlers.

Variable number : Type.
Variable JSON_parse : jsstring -> parse_result number.
Variable JSON_stringify : json number -> option N -> jsstring.

#[local] Abbreviation format0 := (Part0.formatJson JSON_parse JSON_stringify).
#[local] Abbreviation formatP := (Page.formatJSON JSON_parse JSON_stringify).
#[local] Abbreviation minifyP := (Page.minifyJSON JSON_parse JSON_stringify).
#[local] Abbreviation validateP := (Page.validateJSON JSON_parse).

(** X14.  In the variant of [part_000] the markup kept in the state is
    that of the output after format or minify and after clear; hence the
    panel then shows the placeholder exactly when the output is empty, and
    otherwise the highlighted output with its gutter. *)
Theorem markup_in_sync (minify : bool) (st : Part0.state) :
  in_sync (format0 minify st)
  /\ in_sync (Part0.handleClear st)
  /\ Part0.outputPanel (format0 minify st)
     = match Part0.output (format0 minify st) with
       | [] => Part0.Placeholder (lit "Formatted JSON will appear here")
       | _ :: _ =>
           Part0.Highlighted
             (Part0.syntaxHighlight (Part0.output (format0 minify st)))
             (line_numbers_of (Part0.output (format0 minify st)))
       end.
Proof.
  assert (S : in_sync (format0 minify st)).
  { unfold in_sync, Part0.formatJson, Part0.parseAndValidate.
    destruct (trim (Part0.input st)); [symmetry; apply Part0_highlight_nil|].
    destruct (JSON_parse (Part0.input st)) as [v|msg];
      [|symmetry; apply Part0_highlight_nil].
    destruct (is_null v); [symmetry; apply Part0_highlight_nil | reflexivity]. }
  split; [exact S|].
  split; [symmetry; apply Part0_highlight_nil|].
  unfold Part0.outputPanel. unfold in_sync in S. rewrite S.
  destruct (Part0.output (format0 minify st)) as [|a o] eqn:O.
  - now rewrite Part0_highlight_nil.
  - destruct (Part0.syntaxHighlight (a :: o)) eqn:H.
    + apply Part0_highlight_empty in H. discriminate H.
    + f_equal. unfold Part0.lineNumbers. rewrite O. apply numbers_of_lines.
Qed.

(** X15.  Format and minify work on the input alone: whatever was done
    before (format, minify or validate), the last of them decides the
    state; in particular each is idempotent. *)
Theorem last_action_wins (sp : Page.state) (s0 : Part0.state)
  (minify minify' : bool) :
  formatP (formatP sp) = formatP sp
  /\ formatP (minifyP sp) = formatP sp
  /\ formatP (fst (validateP sp)) = formatP sp
  /\ minifyP (minifyP sp) = minifyP sp
  /\ minifyP (formatP sp) = minifyP sp
  /\ minifyP (fst (validateP sp)) = minifyP sp
  /\ format0 minify (format0 minify' s0) = format0 minify s0.
Proof.
  assert (IP : forall st st' : Page.state,
            Page.input st' = Page.input st ->
            Page.copied st' = Page.copied st ->
            Page.indentSize st' = Page.indentSize st ->
            formatP st' = formatP st /\ minifyP st' = minifyP st).
  { intros st st' E1 E2 E3. unfold Page.formatJSON, Page.minifyJSON.
    rewrite E1, E2, E3. split; reflexivity. }
  assert (FP : forall st, Page.input (formatP st) = Page.input st
                          /\ Page.copied (formatP st) = Page.copied st
                          /\ Page.indentSize (formatP st) = Page.indentSize st).
  { intros st. unfold Page.formatJSON.
    destruct (trim (Page.input st)); [repeat split|].
    destruct (JSON_parse (Page.input st)); repeat split. }
  assert (MP : forall st, Page.input (minifyP st) = Page.input st
                          /\ Page.copied (minifyP st) = Page.copied st
                          /\ Page.indentSize (minifyP st) = Page.indentSize st).
  { intros st. unfold Page.minifyJSON.
    destruct (trim (Page.input st)); [repeat split|].
    destruct (JSON_parse (Page.input st)); repeat split. }
  assert (VP : forall st, Page.input (fst (validateP st)) = Page.input st
                          /\ Page.copied (fst (validateP st)) = Page.copied st
                          /\ Page.indentSize (fst (validateP st))
                             = Page.indentSize st).
  { intros st. unfold Page.validateJSON.
    destruct (trim (Page.input st)); [repeat split|].
    destruct (JSON_parse (Page.input st)); repeat split. }
  destruct (FP sp) as (F1 & F2 & F3), (MP sp) as (M1 & M2 & M3),
           (VP sp) as (V1 & V2 & V3).
  split; [apply (IP sp); assumption|].
  split; [apply (IP sp); assumption|].
  split; [apply (IP sp); assumption|].
  split; [apply (IP sp); assumption|].
  split; [apply (IP sp); assumption|].
  split; [apply (IP sp); assumption|].
  assert (F0 : Part0.input (format0 minify' s0) = Part0.input s0
               /\ Part0.copied (format0 minify' s0) = Part0.copied s0).
  { unfold Part0.formatJson.
    destruct (Part0.parseAndValidate JSON_parse (Part0.input s0)) as [v [e|]];
      [split; reflexivity|].
    destruct (is_null v); split; reflexivity. }
  destruct F0 as [E1 E2]. unfold Part0.formatJson at 1 3. now rewrite E1, E2.
Qed.

(** X16.  After clear, format and minify change nothing, and validate asks
    for an input; clear wipes input, output and error whatever the state. *)
Theorem after_clear (sp : Page.state) (s0 : Part0.state) (minify : bool) :
  formatP (Page.clearAll sp) = Page.clearAll sp
  /\ minifyP (Page.clearAll sp) = Page.clearAll sp
  /\ validateP (Page.clearAll sp)
     = (Page.mkState [] [] (Some enter_json) None (Page.copied sp)
                     (Page.indentSize sp), None)
  /\ format0 minify (Part0.handleClear s0) = Part0.handleClear s0
  /\ Page.clearAll (formatP sp) = Page.clearAll sp
  /\ Part0.handleClear (format0 minify s0) = Part0.handleClear s0.
Proof.
  repeat split.
  - unfold Page.formatJSON.
    destruct (trim (Page.input sp)); [reflexivity|].
    destruct (JSON_parse (Page.input sp)); reflexivity.
  - unfold Part0.formatJson.
    destruct (Part0.parseAndValidate JSON_parse (Part0.input s0)) as [v [e|]];
      [reflexivity|].
    destruct (is_null v); reflexivity.
Qed.

(** X17.  The error fields go together.  After format, minify or validate
    in [page.tsx] an error line is set only with an error; after format or
    minify in [part_000] an error has a line and a column, both at least
    1, or neither. *)
Theorem error_fields (sp : Page.state) (s0 : Part0.state) (minify : bool) :
  (Page.errorLine (formatP sp) = None \/ Page.error (formatP sp) <> None)
  /\ (Page.errorLine (minifyP sp) = None \/ Page.error (minifyP sp) <> None)
  /\ (Page.errorLine (fst (validateP sp)) = None
      \/ Page.error (fst (validateP sp)) <> None)
  /\ match Part0.error (format0 minify s0) with
     | Some e =>
         match Part0.line e, Part0.column e with
         | Some line, Some column => (1 <= line)%N /\ (1 <= column)%N
         | None, None => True
         | _, _ => False
         end
     | None => True
     end.
Proof.
  repeat split.
  - unfold Page.formatJSON. destruct (trim (Page.input sp)); [now left|].
    destruct (JSON_parse (Page.input sp)); [now left | right; discriminate].
  - unfold Page.minifyJSON. destruct (trim (Page.input sp)); [now left|].
    destruct (JSON_parse (Page.input sp)); [now left | right; discriminate].
  - unfold Page.validateJSON. destruct (trim (Page.input sp)); [now left|].
    destruct (JSON_parse (Page.input sp)); [now left | right; discriminate].
  - unfold Part0.formatJson, Part0.parseAndValidate.
    destruct (trim (Part0.input s0)); [exact I|].
    destruct (JSON_parse (Part0.input s0)) as [v|msg].
    + destruct (is_null v); exact I.
    + cbn [Part0.error Part0.line Part0.column].
      rewrite getErrorLocation_spec.
      destruct (reported (lit "position") msg) as [p|]; cbn [option_map]; [|exact I].
      unfold location_after.
      destruct (fold_walk_ge (firstn (N.to_nat p) (code_points (Part0.input s0)))
                  (1%N, 1%N)) as [H1 H2]; cbn [fst snd]; try lia.
Qed.

(** X18.  The two variants on one input, the indent size of [page.tsx]
    being, for format, the 2 of [part_000]: after format, and after
    minify, they hold the same error message and the same output, except
    on an input that parses to [null], where [part_000] shows nothing and
    [page.tsx] prints the value. *)
Theorem variants_agree (sp : Page.state) (s0 : Part0.state) (minify : bool) :
  Page.input sp = Part0.input s0 ->
  (minify = false -> Page.indentSize sp = 2%N) ->
  Page.error (if minify then minifyP sp else formatP sp)
  = option_map Part0.message (Part0.error (format0 minify s0))
  /\ (JSON_parse (Page.input sp) <> Parsed JNull ->
      Part0.output (format0 minify s0)
      = Page.output (if minify then minifyP sp else formatP sp))
  /\ (blank (Page.input sp) = false ->
      JSON_parse (Page.input sp) = Parsed JNull ->
      Part0.output (format0 minify s0) = []
      /\ Page.output (if minify then minifyP sp else formatP sp)
         = JSON_stringify JNull (if minify then None else Some 2%N)).
Proof.
  intros Ei Ed.
  assert (Ed' : (if minify then None else Some (Page.indentSize sp))
                = (if minify then None else Some 2%N))
    by (destruct minify; [reflexivity | now rewrite Ed]).
  unfold Page.formatJSON, Page.minifyJSON, Part0.formatJson,
    Part0.parseAndValidate.
  rewrite Ei.
  destruct (trim (Part0.input s0)) as [|a x] eqn:T.
  - apply trim_nil_blank in T.
    destruct minify; cbn; repeat split; intros; congruence.
  - destruct (JSON_parse (Part0.input s0)) as [v|msg] eqn:P.
    + destruct (is_null v) eqn:Nv.
      * apply is_null_JNull in Nv. subst v.
        destruct minify; cbn in *; repeat split; intros; congruence.
      * assert (v <> JNull) by (intros ->; discriminate Nv).
        destruct minify; cbn in *; repeat split; intros; congruence.
    + destruct minify; cbn; repeat split; intros; congruence.
Qed.

(** X19.  Validate changes nothing but the error and its line; it raises
    its alert exactly when it leaves no error; and on an input that is not
    blank it reports the error and the line that format reports. *)
Theorem validate_reports (sp : Page.state) :
  Page.input (fst (validateP sp)) = Page.input sp
  /\ Page.output (fst (validateP sp)) = Page.output sp
  /\ Page.copied (fst (validateP sp)) = Page.copied sp
  /\ Page.indentSize (fst (validateP sp)) = Page.indentSize sp
  /\ snd (validateP sp)
     = match Page.error (fst (validateP sp)) with
       | None => Some (9989%N :: lit " Valid JSON!")
       | Some _ => None
       end
  /\ (blank (Page.input sp) = true
      \/ (Page.error (fst (validateP sp)) = Page.error (formatP sp)
          /\ Page.errorLine (fst (validateP sp))
             = Page.errorLine (formatP sp))).
Proof.
  unfold Page.validateJSON, Page.formatJSON.
  destruct (trim (Page.input sp)) as [|a x] eqn:T.
  - apply trim_nil_blank in T. cbn. repeat split. now left.
  - destruct (JSON_parse (Page.input sp)) as [v|msg]; cbn; repeat split;
      right; split; reflexivity.
Qed.

End MoreHandlers.

Lemma variants_agree_witness :
  Page.input (page_state (lit "null") []) = Part0.input (part0_state (lit "null") [])
  /\ (false = false -> Page.indentSize (page_state (lit "null") []) = 2%N)
  /\ Page.error (Page.formatJSON accept_null print_null
                   (page_state (lit "null") []))
     = option_map Part0.message
         (Part0.error (Part0.formatJson accept_null print_null false
                         (part0_state (lit "null") [])))
  /\ Part0.output (Part0.formatJson accept_null print_null false
                     (part0_state (lit "null") [])) = []
  /\ Page.output (Page.formatJSON accept_null print_null
                    (page_state (lit "null") []))
     = lit "null".
Proof.
  split; [reflexivity|]. split; [reflexivity|].
  destruct (@variants_agree unit accept_null print_null
              (page_state (lit "null") []) (part0_state (lit "null") []) false
              eq_refl (fun _ => eq_refl)) as (E & _ & N).
  split; [exact E|].
  apply N; vm_compute; reflexivity.
Defined.
